(** * SculptAnimate (cnc-visualizer): the G-code interpreter, the path
    builder, the playback controller, the partial-path renderer and the
    two asynchronous resource hooks, embedded from the TypeScript sources
    and checked against the natural-language specification. *)

From Stdlib Require Import Bool Ascii String List Sorted ZArith QArith Qround Qminmax Qpower Lia Lqa.
Import ListNotations.

Local Open Scope string_scope.
Local Open Scope list_scope.

(** ** JavaScript strings and numbers

    A Rocq [string] stands for the JavaScript string with the same
    sequence of code units; only code units below 256 are representable.
    A JavaScript number is [NaN], an infinity or a finite value.  Finite
    values are kept as exact rationals in lowest terms: the rounding of a
    decimal literal to the nearest IEEE double (with its overflow to an
    infinity), and the sign of zero, are not represented.  None of this
    changes whether a parsed value is [NaN]. *)
Module JS.

Inductive number : Type :=
| NaN
| Infinity (negative : bool)
| Finite (q : Q).

Definition isNaN (n : number) : bool :=
  match n with NaN => true | _ => false end.

(** White space and line terminators, as [String.prototype.trim] and
    [parseFloat] strip them: TAB, LF, VT, FF, CR, SP and NBSP. *)
Definition isWhiteSpace (c : ascii) : bool :=
  let n := nat_of_ascii c in
  ((9 <=? n) && (n <=? 13) || (n =? 32) || (n =? 160))%nat.

Fixpoint trimStart (s : string) : string :=
  match s with
  | EmptyString => EmptyString
  | String c r => if isWhiteSpace c then trimStart r else s
  end.

Fixpoint trimEnd (s : string) : string :=
  match s with
  | EmptyString => EmptyString
  | String c r =>
      let r' := trimEnd r in
      if isWhiteSpace c && (r' =? "") then EmptyString else String c r'
  end.

Definition trim (s : string) : string := trimEnd (trimStart s).

(** [s.split(sep)] for a one-character separator: never the empty list,
    and adjacent separators give empty pieces. *)
Fixpoint split (sep : ascii) (s : string) : list string :=
  match s with
  | EmptyString => [EmptyString]
  | String c r =>
      if Ascii.eqb c sep then EmptyString :: split sep r
      else match split sep r with
           | piece :: pieces => String c piece :: pieces
           | [] => [String c EmptyString]
           end
  end.

Definition startsWith (s searchString : string) : bool :=
  String.prefix searchString s.

(** [s.charAt(0)]: the empty string when [s] is empty. *)
Definition charAt0 (s : string) : string :=
  match s with
  | EmptyString => EmptyString
  | String c _ => String c EmptyString
  end.

(** [s.slice(1)]. *)
Definition slice1 (s : string) : string :=
  match s with
  | EmptyString => EmptyString
  | String _ r => r
  end.

(** [toUpperCase] on the letters a-z.  The code units above 127 whose
    upper-case form differs from themselves never become G, X, Y or Z,
    the only values the interpreter compares an upper-cased character
    with, so they are left as they are. *)
Definition upper (c : ascii) : ascii :=
  let n := nat_of_ascii c in
  if ((97 <=? n) && (n <=? 122))%nat then ascii_of_nat (n - 32) else c.

Fixpoint toUpperCase (s : string) : string :=
  match s with
  | EmptyString => EmptyString
  | String c r => String (upper c) (toUpperCase r)
  end.

Definition isDigit (c : ascii) : bool :=
  let n := nat_of_ascii c in ((48 <=? n) && (n <=? 57))%nat.

(** The longest run of decimal digits at the head of [s], and the rest. *)
Fixpoint digits (s : string) : string * string :=
  match s with
  | String c r =>
      if isDigit c then let (ds, rest) := digits r in (String c ds, rest)
      else (EmptyString, s)
  | EmptyString => (EmptyString, EmptyString)
  end.

Fixpoint digitsValue (acc : Z) (ds : string) : Z :=
  match ds with
  | EmptyString => acc
  | String c r => digitsValue (10 * acc + Z.of_nat (nat_of_ascii c - 48)) r
  end.

Definition sign (s : string) : bool * string :=
  match s with
  | String "-" r => (true, r)
  | String "+" r => (false, r)
  | _ => (false, s)
  end.

(** The value of an ExponentPart at the head of [s]; 0 when there is
    none (an [e] that no digit follows is not part of the literal). *)
Definition exponentPart (s : string) : Z :=
  match s with
  | String c r =>
      if Ascii.eqb c "e" || Ascii.eqb c "E" then
        let (negative, r1) := sign r in
        let (ds, _) := digits r1 in
        if ds =? "" then 0%Z
        else if negative then (- digitsValue 0 ds)%Z else digitsValue 0 ds
      else 0%Z
  | EmptyString => 0%Z
  end.

(** [m * 10^e] as a rational in lowest terms. *)
Definition scale (m e : Z) : Q :=
  if (0 <=? e)%Z then inject_Z (m * 10 ^ e)
  else Qred (m # Z.to_pos (10 ^ (- e))).

(** [Number.parseFloat]: leading white space is skipped, then the
    longest prefix that is a StrDecimalLiteral is taken; [NaN] when
    there is none. *)
Definition parseFloat (input : string) : number :=
  let (negative, s) := sign (trimStart input) in
  if String.prefix "Infinity" s then Infinity negative
  else
    let (ip, s1) := digits s in
    let (fp, s2) :=
      match s1 with
      | String "." r => digits r
      | _ => (EmptyString, s1)
      end in
    if (ip =? "") && (fp =? "") then NaN
    else
      let m := digitsValue 0 (ip ++ fp)%string in
      let e := (exponentPart s2 - Z.of_nat (String.length fp))%Z in
      Finite (scale (if negative then (- m)%Z else m) e).

(** [Array.prototype.slice(0, end)] for an integer [end]: a negative
    [end] counts from the end of the array. *)
Definition slice0 {A : Type} (l : list A) (endIndex : Z) : list A :=
  if (endIndex <? 0)%Z
  then firstn (length l - Z.to_nat (- endIndex)) l
  else firstn (Z.to_nat endIndex) l.

(** [toLowerCase] on code units below 256: the letters A-Z and the
    capitals from 192 to 222, the multiplication sign 215 apart, move up
    by 32; every other code unit is its own lower case. *)
Definition lower (c : ascii) : ascii :=
  let n := nat_of_ascii c in
  if ((65 <=? n) && (n <=? 90)
      || (192 <=? n) && (n <=? 222) && negb (n =? 215))%nat
  then ascii_of_nat (n + 32) else c.

Fixpoint toLowerCase (s : string) : string :=
  match s with
  | EmptyString => EmptyString
  | String c r => String (lower c) (toLowerCase r)
  end.

(** [s.endsWith(searchString)]. *)
Fixpoint endsWith (s searchString : string) : bool :=
  (s =? searchString)
  || match s with
     | EmptyString => false
     | String _ r => endsWith r searchString
     end.

(** *** Double arithmetic

    Every arithmetic operation on numbers returns the double nearest to
    its exact result, ties going to the double with an even significand.
    [roundDouble] is that rounding on rationals: 53 significant bits,
    and steps of 2^-1074 below 2^-1022.  Results beyond the largest
    double are not turned into an infinity. *)
Definition pow2 (e : Z) : Q := 2 ^ e.

(** The integer [k] with [2^k <= x < 2^(k+1)], for a positive [x]. *)
Definition ilog2 (x : Q) : Z :=
  let k := (Z.log2 (Qnum x) - Z.log2 (Zpos (Qden x)))%Z in
  if Qle_bool (pow2 k) x then k else (k - 1)%Z.

Definition roundHalfEven (q : Q) : Z :=
  let f := Qfloor q in
  match Qcompare (q - inject_Z f) (1 # 2) with
  | Lt => f
  | Gt => (f + 1)%Z
  | Eq => if Z.even f then f else (f + 1)%Z
  end.

Definition roundPositive (x : Q) : Q :=
  let e := Z.max (ilog2 x - 52) (-1074) in
  inject_Z (roundHalfEven (x * pow2 (- e))) * pow2 e.

Definition roundDouble (x : Q) : Q :=
  match Qcompare x 0 with
  | Eq => 0
  | Gt => roundPositive x
  | Lt => - roundPositive (- x)
  end.

End JS.

(** ** three.js vectors *)
Module Vector3.
Record t : Type := new { x : JS.number; y : JS.number; z : JS.number }.
End Vector3.

(** ** The interpreter and the path builder (hook [useGCodeParser]) *)
Module GCode.
Import JS.

Record GCodeCommand : Type := mkCommand {
  type : string;
  x : option number;
  y : option number;
  z : option number
}.

Definition emptyCommand : GCodeCommand :=
  {| type := ""; x := None; y := None; z := None |}.

(** The letter of a token, [part.charAt(0).toUpperCase()]. *)
Definition code (part : string) : string := toUpperCase (charAt0 part).

(** The numeric value of a token, [Number.parseFloat(part.slice(1))]. *)
Definition value (part : string) : number := parseFloat (slice1 part).

(** The body of the loop over the tokens of one line. *)
Definition parsePart (command : GCodeCommand) (part : string) : GCodeCommand :=
  if code part =? "G" then
    {| type := part; x := x command; y := y command; z := z command |}
  else if negb (isNaN (value part)) then
    if code part =? "X" then
      {| type := type command; x := Some (value part); y := y command; z := z command |}
    else if code part =? "Y" then
      {| type := type command; x := x command; y := Some (value part); z := z command |}
    else if code part =? "Z" then
      {| type := type command; x := x command; y := y command; z := Some (value part) |}
    else command
  else command.

Definition parseParts (parts : list string) : GCodeCommand :=
  fold_left parsePart parts emptyCommand.

Definition isDefined {A : Type} (o : option A) : bool :=
  match o with Some _ => true | None => false end.

(** The test that guards [commands.push(command)]: a non-empty [type]
    and at least one coordinate. *)
Definition keep (command : GCodeCommand) : bool :=
  negb (type command =? "")
  && (isDefined (x command) || isDefined (y command) || isDefined (z command)).

(** What one input line contributes: [None] when the line is skipped
    (blank or a comment) or its command is not pushed. *)
Definition lineCommand (line : string) : option GCodeCommand :=
  let trimmedLine := trim line in
  if (trimmedLine =? "") || startsWith trimmedLine ";" then None
  else
    let command := parseParts (split " " trimmedLine) in
    if keep command then Some command else None.

Definition parseStep (commands : list GCodeCommand) (line : string)
  : list GCodeCommand :=
  match lineCommand line with
  | Some command => commands ++ [command]
  | None => commands
  end.

Definition LF : ascii := ascii_of_nat 10.

Definition parseGCode (content : string) : list GCodeCommand :=
  fold_left parseStep (split LF content) [].

Definition origin : Vector3.t :=
  Vector3.new (Finite 0) (Finite 0) (Finite 0).

(** The test [command.type.startsWith('G0') || command.type.startsWith('G1')]. *)
Definition isMotion (command : GCodeCommand) : bool :=
  startsWith (type command) "G0" || startsWith (type command) "G1".

(** [newPosition]: a clone of the current position with the axes the
    command carries overwritten. *)
Definition moveTo (currentPosition : Vector3.t) (command : GCodeCommand)
  : Vector3.t :=
  Vector3.new
    (match x command with Some v => v | None => Vector3.x currentPosition end)
    (match y command with Some v => v | None => Vector3.y currentPosition end)
    (match z command with Some v => v | None => Vector3.z currentPosition end).

(** The loop state of [createToolPath]: the points pushed so far and
    the current position. *)
Definition pathStep (st : list Vector3.t * Vector3.t) (command : GCodeCommand)
  : list Vector3.t * Vector3.t :=
  let (points, currentPosition) := st in
  if isMotion command then
    let newPosition := moveTo currentPosition command in
    (points ++ [currentPosition; newPosition], newPosition)
  else st.

Definition tracePoints (commands : list GCodeCommand) : list Vector3.t :=
  fst (fold_left pathStep commands ([], origin)).

Definition defaultSegment : list Vector3.t :=
  [ Vector3.new (Finite (-10 # 1)) (Finite 0) (Finite 0);
    Vector3.new (Finite (10 # 1)) (Finite 0) (Finite 0) ].

(** [createToolPath]; the [THREE.Line] it returns is represented by the
    points its geometry is built from. *)
Definition createToolPath (commands : list GCodeCommand) : list Vector3.t :=
  let points := tracePoints commands in
  if (length points <? 2)%nat then points ++ defaultSegment else points.

Definition unlines (lines : list string) : string :=
  String.concat (String LF EmptyString) lines.

(** The seven-line program of the end-to-end scenario. *)
Definition scenarioText : string :=
  unlines ["G21"; "G90"; "G0 Z5"; "G0 X0 Y0"; "G1 Z-1 F100"; "G1 X50 F200"; "G1 Y50"].

(** Notions in which the properties of the interpreter are stated:
    a G token, a numerically valid token of an axis, and the last token
    of a line that passes a test. *)
Definition isGToken (part : string) : bool := code part =? "G".

Definition isAxisToken (axis part : string) : bool :=
  (code part =? axis) && negb (isNaN (value part)).

Definition isCoordinateToken (part : string) : bool :=
  isAxisToken "X" part || isAxisToken "Y" part || isAxisToken "Z" part.

Definition lastToken (test : string -> bool) (parts : list string)
  : option string :=
  find test (rev parts).

(** The tokens of an input line, as the interpreter sees them. *)
Definition tokens (line : string) : list string := split " " (trim line).

(** A token that can change the command of its line. *)
Definition isRelevantToken (part : string) : bool :=
  isGToken part || isCoordinateToken part.

Definition notNaN (o : option number) : bool :=
  match o with
  | Some v => negb (isNaN v)
  | None => true
  end.

(** What every command the interpreter returns satisfies: its type
    begins with g or G, it has a coordinate, and no coordinate is NaN. *)
Definition wellFormed (command : GCodeCommand) : bool :=
  (code (type command) =? "G")
  && (isDefined (x command) || isDefined (y command) || isDefined (z command))
  && notNaN (x command) && notNaN (y command) && notNaN (z command).

(** The loop of [createToolPath] from a given position, in recursive
    form: the points it pushes, and the position it ends at. *)
Fixpoint traceFrom (position : Vector3.t) (commands : list GCodeCommand)
  : list Vector3.t :=
  match commands with
  | [] => []
  | command :: rest =>
      if isMotion command then
        position :: moveTo position command
          :: traceFrom (moveTo position command) rest
      else traceFrom position rest
  end.

Fixpoint endFrom (position : Vector3.t) (commands : list GCodeCommand)
  : Vector3.t :=
  match commands with
  | [] => position
  | command :: rest =>
      endFrom (if isMotion command then moveTo position command else position) rest
  end.

(** A flattened list of segments that starts at [start] and in which
    every segment begins where the one before it ends. *)
Fixpoint connected (start : Vector3.t) (points : list Vector3.t) : Prop :=
  match points with
  | [] => True
  | a :: more =>
      match more with
      | [] => False
      | b :: rest => a = start /\ connected b rest
      end
  end.

(** The last motion command of a sequence that carries a given axis. *)
Definition lastCarrying (axis : GCodeCommand -> option number)
    (commands : list GCodeCommand) : option GCodeCommand :=
  find (fun command => isMotion command && isDefined (axis command))
       (rev commands).

Definition carried (axis : GCodeCommand -> option number) (start : number)
    (commands : list GCodeCommand) : number :=
  match lastCarrying axis commands with
  | Some command => match axis command with Some v => v | None => start end
  | None => start
  end.

Definition vertexNotNaN (v : Vector3.t) : bool :=
  negb (isNaN (Vector3.x v)) && negb (isNaN (Vector3.y v))
  && negb (isNaN (Vector3.z v)).

End GCode.

(** ** The playback controller (component [Scene]: [animate],
    [togglePlay], [handleReset], [handleProgressChange])

    The React state [progress], [isPlaying] and the mutable cell
    [lastTimeRef.current] are threaded explicitly.  Times and progress
    are exact rationals. *)
Module Playback.

Record State : Type := mkState {
  progress : Q;
  isPlaying : bool;
  lastTime : Q
}.

Definition initial : State :=
  {| progress := 0; isPlaying := false; lastTime := 0 |}.

Definition animationDuration : Q := 5000 # 1.

(** [animate(currentTime)], the frame callback. *)
Definition animate (currentTime : Q) (s : State) : State :=
  if negb (isPlaying s) then
    {| progress := progress s; isPlaying := isPlaying s; lastTime := 0 |}
  else
    let captured :=
      if Qeq_bool (lastTime s) 0 then currentTime else lastTime s in
    let deltaTime := currentTime - captured in
    let newProgress := Qmin 1 (progress s + deltaTime / animationDuration) in
    if Qle_bool 1 newProgress then
      {| progress := newProgress; isPlaying := false; lastTime := 0 |}
    else
      {| progress := newProgress; isPlaying := isPlaying s; lastTime := currentTime |}.

Definition togglePlay (s : State) : State :=
  if negb (isPlaying s) then
    {| progress := if Qle_bool 1 (progress s) then 0 else progress s;
       isPlaying := true;
       lastTime := lastTime s |}
  else
    {| progress := progress s; isPlaying := false; lastTime := lastTime s |}.

Definition handleReset (s : State) : State :=
  {| progress := 0; isPlaying := false; lastTime := 0 |}.

(** [handleProgressChange]; [newProgress] is the number the slider
    delivers, [Number.parseFloat(event.target.value)]. *)
Definition handleProgressChange (newProgress : Q) (s : State) : State :=
  {| progress := newProgress;
     isPlaying := if Qle_bool 1 newProgress then false else isPlaying s;
     lastTime := lastTime s |}.

Inductive Event : Type :=
| Toggle
| Reset
| Seek (newProgress : Q)
| Frame (currentTime : Q).

(** One user action or one animation frame.  The effect on
    [isPlaying, animate] cancels the requested frame whenever
    [isPlaying] is false, so [animate] only ever runs while playing. *)
Definition step (s : State) (e : Event) : State :=
  match e with
  | Toggle => togglePlay s
  | Reset => handleReset s
  | Seek newProgress => handleProgressChange newProgress s
  | Frame currentTime => if isPlaying s then animate currentTime s else s
  end.

Definition run (s : State) (events : list Event) : State :=
  fold_left step events s.

(** The progress values after each of a run of consecutive frames. *)
Fixpoint frames (s : State) (times : list Q) : list Q :=
  match times with
  | [] => []
  | t :: rest => progress (step s (Frame t)) :: frames (step s (Frame t)) rest
  end.

(** The four states of the specification's state machine, read off the
    controller's variables as the specification defines them: Idle is
    progress 0 and not playing, Completed is progress 1 (or beyond) and
    not playing, Paused is any other progress and not playing. *)
Inductive Phase : Type := Idle | Playing | Paused | Completed.

Definition phase (s : State) : Phase :=
  if isPlaying s then Playing
  else if Qle_bool (progress s) 0 then Idle
  else if Qle_bool 1 (progress s) then Completed
  else Paused.

Definition clamp (v lo hi : Q) : Q := Qmax lo (Qmin hi v).

(** What the next frame time must satisfy for the elapsed time to be
    non-negative: no time is stored, or the stored time is not later. *)
Definition ready (s : State) (times : list Q) : Prop :=
  match times with
  | [] => True
  | t :: _ => lastTime s == 0 \/ lastTime s <= t
  end.

(** The seek values of an event list stay at or below 1, as the slider
    guarantees. *)
Definition seeksWithin (events : list Event) : Prop :=
  Forall (fun e => match e with Seek v => v <= 1 | _ => True end) events.

End Playback.

(** ** The partial-path renderer ([updatePathAnimation]) *)
Module Renderer.

Definition pointsToShow (totalPoints : nat) (progressValue : Q) : Z :=
  if Qle_bool progressValue 0 then 0%Z
  else if Qle_bool 1 progressValue then Z.of_nat totalPoints
  else Z.max 2 (Qceiling (inject_Z (Z.of_nat totalPoints) * progressValue)).

(** The points of the line [updatePathAnimation] installs in
    [toolPathRef.current]; [None] when it returns before touching the
    scene (no path points, or no scene yet). *)
Definition updatePathAnimation
    (completePathPoints : list Vector3.t) (sceneReady : bool)
    (progressValue : Q) : option (list Vector3.t) :=
  if (length completePathPoints =? 0)%nat || negb sceneReady then None
  else
    let totalPoints := length completePathPoints in
    Some (JS.slice0 completePathPoints (pointsToShow totalPoints progressValue)).

(** The same count with the product [totalPoints * progressValue]
    rounded as the double multiplication rounds it. *)
Definition pointsToShowDouble (totalPoints : nat) (progressValue : Q) : Z :=
  if Qle_bool progressValue 0 then 0%Z
  else if Qle_bool 1 progressValue then Z.of_nat totalPoints
  else
    Z.max 2
      (Qceiling
         (JS.roundDouble (inject_Z (Z.of_nat totalPoints) * progressValue))).

Definition updatePathAnimationDouble
    (completePathPoints : list Vector3.t) (sceneReady : bool)
    (progressValue : Q) : option (list Vector3.t) :=
  if (length completePathPoints =? 0)%nat || negb sceneReady then None
  else
    let totalPoints := length completePathPoints in
    Some (JS.slice0 completePathPoints
            (pointsToShowDouble totalPoints progressValue)).

End Renderer.

(** ** The resource slots (the load effects of [useGCodeParser] and
    [useThreeSetup])

    Both hooks have the same shape: a state cell (the slot), a ref that
    follows it after every render, and an effect that captures the ref,
    clears the slot, awaits the source and then installs the outcome.
    The asynchronous part is modelled by events: [Trigger] is an effect
    run (mount, or a change of the file argument), [Resolve] is the
    moment the awaited load of an earlier run settles. *)
Module Hook.
Section Slot.

(** [THREE.Line] for the path slot, [THREE.Mesh] for the model slot. *)
Variable Resource : Type.

Record State : Type := mkState {
  slot : option Resource;        (* toolPath / model *)
  ref : option Resource;         (* toolPathRef.current / modelRef.current *)
  previous : option Resource;    (* previousPath of the latest effect run *)
  pending : list (nat * option Resource); (* loads in flight, each with its previousPath *)
  disposed : list Resource;      (* every resource handed to dispose, oldest first *)
  isLoading : bool;
  failed : bool                  (* error !== null *)
}.

Definition initial : State :=
  {| slot := None; ref := None; previous := None; pending := [];
     disposed := []; isLoading := false; failed := false |}.

(** [cleanupToolPath] / [cleanupModel]. *)
Definition cleanup (resource : option Resource) (log : list Resource)
  : list Resource :=
  match resource with
  | Some r => log ++ [r]
  | None => log
  end.

(** The render that follows a state change: the ref takes the slot's
    value. *)
Definition render (s : State) : State :=
  {| slot := slot s; ref := slot s; previous := previous s;
     pending := pending s; disposed := disposed s;
     isLoading := isLoading s; failed := failed s |}.

Fixpoint lookup (id : nat) (loads : list (nat * option Resource))
  : option (option Resource) :=
  match loads with
  | [] => None
  | (k, p) :: rest => if (k =? id)%nat then Some p else lookup id rest
  end.

Definition forget (id : nat) (loads : list (nat * option Resource))
  : list (nat * option Resource) :=
  filter (fun kp => negb (fst kp =? id)%nat) loads.

(** An effect run for load [id]: the cleanup of the run it replaces,
    then the synchronous head of [loadPath] / [loadModel]. *)
Definition trigger (id : nat) (s : State) : State :=
  let log := cleanup (previous s) (disposed s) in
  let previousPath := ref s in
  render
    {| slot := None; ref := ref s; previous := previousPath;
       pending := (id, previousPath) :: pending s; disposed := log;
       isLoading := true; failed := false |}.

(** The awaited load [id] settles: [Some r] is the resource built
    from the loaded source, [None] a rejection. *)
Definition resolve (id : nat) (outcome : option Resource) (s : State) : State :=
  match lookup id (pending s) with
  | None => s
  | Some previousPath =>
      render
        {| slot := outcome; ref := ref s; previous := previous s;
           pending := forget id (pending s);
           disposed := cleanup previousPath (disposed s);
           isLoading := false;
           failed := match outcome with Some _ => false | None => true end |}
  end.

(** Unmount: the cleanup returned by the latest effect run. *)
Definition unmount (s : State) : State :=
  {| slot := slot s; ref := ref s; previous := previous s;
     pending := pending s;
     disposed := cleanup (previous s) (disposed s);
     isLoading := isLoading s; failed := failed s |}.

Inductive Event : Type :=
| Trigger (id : nat)
| Resolve (id : nat) (outcome : option Resource).

Definition step (s : State) (e : Event) : State :=
  match e with
  | Trigger id => trigger id s
  | Resolve id outcome => resolve id outcome s
  end.

Definition run (s : State) (events : list Event) : State :=
  fold_left step events s.

(** Every value the slot takes along a run, oldest first. *)
Fixpoint slots (s : State) (events : list Event) : list (option Resource) :=
  match events with
  | [] => []
  | e :: rest => slot (step s e) :: slots (step s e) rest
  end.

End Slot.

Arguments slot {Resource} _.
Arguments ref {Resource} _.
Arguments previous {Resource} _.
Arguments pending {Resource} _.
Arguments disposed {Resource} _.
Arguments isLoading {Resource} _.
Arguments failed {Resource} _.
Arguments initial {Resource}.
Arguments trigger {Resource} _ _.
Arguments resolve {Resource} _ _ _.
Arguments Trigger {Resource} _.
Arguments Resolve {Resource} _ _.
Arguments step {Resource} _ _.
Arguments run {Resource} _ _.
Arguments slots {Resource} _ _.
Arguments unmount {Resource} _.
Arguments lookup {Resource} _ _.

End Hook.

(** ** The sources the two hooks load from *)
Module Assets.

Definition DEFAULT_GCODE_PATH : string := "/models/test.gcode".
Definition DEFAULT_STL_PATH : string := "/models/dragon.stl".

Record MeshPhongMaterial : Type := {
  color : Z; specular : Z; shininess : Z
}.

Definition phong : MeshPhongMaterial :=
  {| color := 0xaaaaaa; specular := 0x111111; shininess := 200 |}.

Section Sources.

(** An uploaded [File], and the geometry the STL decoder returns. *)
Variables File BufferGeometry : Type.

Inductive Source : Type :=
| Upload (file : File)
| Default (url : string).

Record Mesh : Type := newMesh {
  geometry : BufferGeometry;
  material : MeshPhongMaterial
}.

(** The branch on [gcodeFile] in [loadPath]. *)
Definition gcodeSource (gcodeFile : option File) : Source :=
  match gcodeFile with
  | Some file => Upload file
  | None => Default DEFAULT_GCODE_PATH
  end.

(** The branch on [stlFile] in [loadModel]. *)
Definition stlSource (stlFile : option File) : Source :=
  match stlFile with
  | Some file => Upload file
  | None => Default DEFAULT_STL_PATH
  end.

(** [readText] stands for [file.text()] and for [fetch] followed by
    [response.text()]; [decode] for [loader.parse] of the file's bytes
    and for [loader.loadAsync].  [None] is a rejected promise or a
    response that is not ok. *)
Variable readText : Source -> option string.
Variable decode : Source -> option BufferGeometry.

Definition loadPath (gcodeFile : option File) : option (list Vector3.t) :=
  match readText (gcodeSource gcodeFile) with
  | Some content => Some (GCode.createToolPath (GCode.parseGCode content))
  | None => None
  end.

Definition loadModel (stlFile : option File) : option Mesh :=
  match decode (stlSource stlFile) with
  | Some g => Some (newMesh g phong)
  | None => None
  end.

(** The earlier copy of the model hook kept under
    [cnc-visualizer/hooks/useThreeSetup.ts]: its effect returns at
    once when there is no file, so it reads nothing. *)
Definition legacyStlSource (stlFile : option File) : option Source :=
  match stlFile with
  | None => None
  | Some file => Some (Upload file)
  end.

(** What the earlier copy hands to its mesh: the decoded file, and
    nothing when it returned before reading. *)
Definition legacyLoadedGeometry (stlFile : option File)
  : option BufferGeometry :=
  match legacyStlSource stlFile with
  | Some source => decode source
  | None => None
  end.

End Sources.

Arguments Upload {File} _.
Arguments Default {File} _.
Arguments newMesh {BufferGeometry} _ _.
Arguments gcodeSource {File} _.
Arguments stlSource {File} _.
Arguments legacyStlSource {File} _.
Arguments loadPath {File} _ _.
Arguments loadModel {File BufferGeometry} _ _.
Arguments legacyLoadedGeometry {File BufferGeometry} _ _.
Arguments geometry {BufferGeometry} _.
Arguments material {BufferGeometry} _.

(** The default asset [public/models/test.gcode]. *)
Definition test_gcode : string :=
  GCode.unlines
    [ "; Square toolpath on a 200x200 grid";
      "G21 ; Set units to millimeters";
      "G90 ; Absolute positioning";
      "G0 Z10 ; Move up for safety";
      "G0 X-60 Y-60 ; Move to start position (larger square)";
      "G1 Z0 F300 ; Plunge to cutting depth (top surface of block)";
      "G1 X60 F600 ; Cut along X";
      "G1 Y60 ; Cut along Y";
      "G1 X-60 ; Cut back along X";
      "G1 Y-60 ; Cut back along Y";
      "G0 Z10 ; Move up for safety";
      "M2 ; End program";
      "" ].

(** The path of the default asset: the square of the file, traced by
    its eight motion lines. *)
Definition test_gcode_path : list Vector3.t :=
  [
      Vector3.new (JS.Finite 0) (JS.Finite 0) (JS.Finite 0);
      Vector3.new (JS.Finite 0) (JS.Finite 0) (JS.Finite 10);
      Vector3.new (JS.Finite 0) (JS.Finite 0) (JS.Finite 10);
      Vector3.new (JS.Finite (-60)) (JS.Finite (-60)) (JS.Finite 10);
      Vector3.new (JS.Finite (-60)) (JS.Finite (-60)) (JS.Finite 10);
      Vector3.new (JS.Finite (-60)) (JS.Finite (-60)) (JS.Finite 0);
      Vector3.new (JS.Finite (-60)) (JS.Finite (-60)) (JS.Finite 0);
      Vector3.new (JS.Finite 60) (JS.Finite (-60)) (JS.Finite 0);
      Vector3.new (JS.Finite 60) (JS.Finite (-60)) (JS.Finite 0);
      Vector3.new (JS.Finite 60) (JS.Finite 60) (JS.Finite 0);
      Vector3.new (JS.Finite 60) (JS.Finite 60) (JS.Finite 0);
      Vector3.new (JS.Finite (-60)) (JS.Finite 60) (JS.Finite 0);
      Vector3.new (JS.Finite (-60)) (JS.Finite 60) (JS.Finite 0);
      Vector3.new (JS.Finite (-60)) (JS.Finite (-60)) (JS.Finite 0);
      Vector3.new (JS.Finite (-60)) (JS.Finite (-60)) (JS.Finite 0);
      Vector3.new (JS.Finite (-60)) (JS.Finite (-60)) (JS.Finite 10) ].

End Assets.

(** ** The upload handlers of [CNCVisualizer] ([handleStlUpload],
    [handleGcodeUpload]) *)
Module Upload.
Section Handlers.

Variable File : Type.
Variable name : File -> string.

(** The test [file?.name.toLowerCase().endsWith(extension)]; it is false
    when no file was picked. *)
Definition accepts (extension : string) (picked : option File) : bool :=
  match picked with
  | Some file => JS.endsWith (JS.toLowerCase (name file)) extension
  | None => false
  end.

(** The file state after the handler ran, and whether it raised the
    alert.  [picked] is [event.target.files?.[0]]. *)
Definition handleStlUpload (picked stlFile : option File)
  : option File * bool :=
  if accepts ".stl" picked then (picked, false) else (stlFile, true).

Definition handleGcodeUpload (picked gcodeFile : option File)
  : option File * bool :=
  if accepts ".gcode" picked then (picked, false) else (gcodeFile, true).

End Handlers.

Arguments accepts {File} _ _ _.
Arguments handleStlUpload {File} _ _ _.
Arguments handleGcodeUpload {File} _ _ _.

End Upload.

(** * Properties *)

Import JS.

(** ** The interpreter *)
Section InterpreterFacts.
Import GCode.

Lemma parseParts_snoc (parts : list string) (part : string) :
  parseParts (parts ++ [part]) = parsePart (parseParts parts) part.
Proof. unfold parseParts. rewrite fold_left_app. reflexivity. Qed.

Lemma lastToken_snoc (test : string -> bool) (parts : list string) (part : string) :
  lastToken test (parts ++ [part])
  = if test part then Some part else lastToken test parts.
Proof. unfold lastToken. rewrite rev_app_distr. reflexivity. Qed.

Lemma code_eq_excludes (part a b : string) :
  (code part =? a) = true -> (a =? b) = false -> (code part =? b) = false.
Proof.
  intros Ha Hab. apply String.eqb_eq in Ha. rewrite Ha. exact Hab.
Qed.

(** Each field of the command of a token list is decided by the last
    token that can write it. *)
Lemma parseParts_fields (parts : list string) :
  type (parseParts parts)
    = match lastToken isGToken parts with Some part => part | None => "" end
  /\ x (parseParts parts) = option_map value (lastToken (isAxisToken "X") parts)
  /\ y (parseParts parts) = option_map value (lastToken (isAxisToken "Y") parts)
  /\ z (parseParts parts) = option_map value (lastToken (isAxisToken "Z") parts).
Proof.
  induction parts as [|part parts IH] using rev_ind.
  - repeat split.
  - destruct IH as (IHt & IHx & IHy & IHz).
    rewrite parseParts_snoc, !lastToken_snoc.
    unfold parsePart, isGToken, isAxisToken.
    destruct (code part =? "G") eqn:HG.
    + rewrite (code_eq_excludes part "G" "X" HG eq_refl),
              (code_eq_excludes part "G" "Y" HG eq_refl),
              (code_eq_excludes part "G" "Z" HG eq_refl).
      cbn. auto.
    + destruct (isNaN (value part)); cbn [negb].
      * rewrite !andb_false_r. auto.
      * rewrite !andb_true_r.
        destruct (code part =? "X") eqn:HX.
        { rewrite (code_eq_excludes part "X" "Y" HX eq_refl),
                  (code_eq_excludes part "X" "Z" HX eq_refl).
          cbn. auto. }
        destruct (code part =? "Y") eqn:HY.
        { rewrite (code_eq_excludes part "Y" "Z" HY eq_refl). cbn. auto. }
        destruct (code part =? "Z"); cbn; auto.
Qed.

Lemma lastToken_some (test : string -> bool) (parts : list string) (part : string) :
  lastToken test parts = Some part -> In part parts /\ test part = true.
Proof.
  unfold lastToken. intros H. apply find_some in H.
  destruct H as [Hin Ht]. split; [apply in_rev; exact Hin | exact Ht].
Qed.

Lemma lastToken_none (test : string -> bool) (parts : list string) :
  lastToken test parts = None ->
  forall part, In part parts -> test part = false.
Proof.
  unfold lastToken. intros H part Hin.
  apply (find_none _ _ H). apply in_rev in Hin. exact Hin.
Qed.

Lemma parseGCode_lines (content : string) :
  parseGCode content
  = flat_map
      (fun line => match lineCommand line with Some c => [c] | None => [] end)
      (split LF content).
Proof.
  unfold parseGCode.
  assert (forall lines acc,
    fold_left parseStep lines acc
    = acc ++ flat_map
        (fun line => match lineCommand line with Some c => [c] | None => [] end)
        lines) as H.
  { induction lines as [|line lines IH]; intros acc; cbn [fold_left flat_map].
    - now rewrite app_nil_r.
    - rewrite IH. unfold parseStep.
      destruct (lineCommand line); [now rewrite <- app_assoc | reflexivity]. }
  apply (H _ []).
Qed.

Lemma lineCommand_some (line : string) (command : GCodeCommand) :
  lineCommand line = Some command ->
  command = parseParts (tokens line) /\ keep command = true
  /\ (trim line =? "") = false /\ startsWith (trim line) ";" = false.
Proof.
  unfold lineCommand, tokens.
  destruct ((trim line =? "") || startsWith (trim line) ";") eqn:Hskip;
    [discriminate|].
  apply orb_false_elim in Hskip. destruct Hskip as [He Hc].
  destruct (keep (parseParts (split " " (trim line)))) eqn:Hk; [|discriminate].
  intros H. injection H as <-. auto.
Qed.

Lemma gToken_nonempty (part : string) : isGToken part = true -> part <> "".
Proof. intros H ->. discriminate H. Qed.

Lemma keep_tokens (parts : list string) :
  keep (parseParts parts) = true <->
  (exists part, In part parts /\ isGToken part = true)
  /\ (exists part, In part parts /\ isCoordinateToken part = true).
Proof.
  destruct (parseParts_fields parts) as (Ht & Hx & Hy & Hz).
  unfold keep. rewrite Ht, Hx, Hy, Hz. clear Ht Hx Hy Hz.
  split.
  - intros H. apply andb_prop in H. destruct H as [HG HC]. split.
    + destruct (lastToken isGToken parts) as [part|] eqn:E; [|discriminate].
      exists part. now apply lastToken_some.
    + unfold isCoordinateToken.
      destruct (lastToken (isAxisToken "X") parts) as [px|] eqn:EX.
      { apply lastToken_some in EX. exists px. destruct EX as [? ->]. auto. }
      destruct (lastToken (isAxisToken "Y") parts) as [py|] eqn:EY.
      { apply lastToken_some in EY. exists py. destruct EY as [? ->].
        rewrite orb_true_r. auto. }
      destruct (lastToken (isAxisToken "Z") parts) as [pz|] eqn:EZ.
      { apply lastToken_some in EZ. exists pz. destruct EZ as [? ->].
        rewrite orb_true_r. auto. }
      discriminate.
  - intros [(pg & Hing & HG) (pc & Hinc & HC)].
    apply andb_true_intro. split.
    + destruct (lastToken isGToken parts) as [part|] eqn:E.
      * apply lastToken_some in E. destruct E as [_ E].
        apply gToken_nonempty in E.
        destruct (part =? "") eqn:Ee; [|reflexivity].
        apply String.eqb_eq in Ee. contradiction.
      * rewrite (lastToken_none _ _ E pg Hing) in HG. discriminate.
    + unfold isCoordinateToken in HC.
      destruct (lastToken (isAxisToken "X") parts) eqn:EX; [reflexivity|].
      destruct (lastToken (isAxisToken "Y") parts) eqn:EY; [reflexivity|].
      destruct (lastToken (isAxisToken "Z") parts) eqn:EZ; [reflexivity|].
      rewrite (lastToken_none _ _ EX pc Hinc),
              (lastToken_none _ _ EY pc Hinc),
              (lastToken_none _ _ EZ pc Hinc) in HC.
      discriminate.
Qed.

End InterpreterFacts.

Example override_example :
  GCode.lineCommand "G0 X1 g1 Xbad x2 X"
  = Some (GCode.mkCommand "g1" (Some (Finite 2)) None None).
Proof. reflexivity. Qed.

(** C10: on one line a later token overrides an earlier one with the
    same letter.  The command's type is the last G token of the line (the
    empty string when there is none), and each of x, y and z is the value
    of the last token of that axis whose number is valid (absent when
    there is none). *)
Theorem later_token_overrides (line : string) :
  let command := GCode.parseParts (GCode.tokens line) in
  GCode.type command
    = match GCode.lastToken GCode.isGToken (GCode.tokens line) with
      | Some part => part
      | None => ""
      end
  /\ GCode.x command
     = option_map GCode.value
         (GCode.lastToken (GCode.isAxisToken "X") (GCode.tokens line))
  /\ GCode.y command
     = option_map GCode.value
         (GCode.lastToken (GCode.isAxisToken "Y") (GCode.tokens line))
  /\ GCode.z command
     = option_map GCode.value
         (GCode.lastToken (GCode.isAxisToken "Z") (GCode.tokens line)).
Proof. exact (parseParts_fields (GCode.tokens line)). Qed.

(** C4, as the claim states it, fails: the line [G4 X2] has no token
    that begins with G0 or G1, and the interpreter appends its command. *)
Lemma non_motion_line_is_appended :
  forallb (fun part => negb (startsWith part "G0" || startsWith part "G1"))
          (GCode.tokens "G4 X2") = true
  /\ GCode.parseGCode "G4 X2"
     = [GCode.mkCommand "G4" (Some (Finite 2)) None None].
Proof. split; reflexivity. Qed.

(** C4, amended: a line contributes a command only if it has a G token
    (any token whose first character is g or G, motion code or not) and a
    token of the X, Y or Z axis with a valid number; and every line that
    is neither blank nor a comment and has both contributes one.  A line
    with a non-motion G code is appended like any other; it is the path
    builder that passes over it. *)
Theorem appended_only_with_G_and_coordinate
    (line : string) (command : GCode.GCodeCommand)
    (Happended : GCode.lineCommand line = Some command) :
  (exists part, In part (GCode.tokens line) /\ GCode.isGToken part = true)
  /\ (exists part,
        In part (GCode.tokens line) /\ GCode.isCoordinateToken part = true)
  /\ (forall other : string,
        (trim other =? "") = false ->
        startsWith (trim other) ";" = false ->
        (exists part, In part (GCode.tokens other) /\ GCode.isGToken part = true) ->
        (exists part,
           In part (GCode.tokens other) /\ GCode.isCoordinateToken part = true) ->
        GCode.lineCommand other = Some (GCode.parseParts (GCode.tokens other))).
Proof.
  apply lineCommand_some in Happended.
  destruct Happended as (-> & Hkeep & _ & _).
  apply keep_tokens in Hkeep. destruct Hkeep as [HG HC].
  split; [exact HG|]. split; [exact HC|].
  intros other He Hc HG' HC'.
  unfold GCode.lineCommand. rewrite He, Hc. cbn [orb].
  fold (GCode.tokens other).
  assert (GCode.keep (GCode.parseParts (GCode.tokens other)) = true) as ->
    by (apply keep_tokens; auto).
  reflexivity.
Qed.

Lemma appended_only_with_G_and_coordinate_witness :
  (exists part, In part (GCode.tokens "G4 X2") /\ GCode.isGToken part = true)
  /\ (exists part,
        In part (GCode.tokens "G4 X2") /\ GCode.isCoordinateToken part = true).
Proof.
  pose proof (appended_only_with_G_and_coordinate "G4 X2"
                (GCode.mkCommand "G4" (Some (Finite 2)) None None)
                eq_refl) as H.
  split; [exact (proj1 H) | exact (proj1 (proj2 H))].
Defined.

(** C1, as the claim states it, fails: the seven lines do not give four
    commands and eight vertices. *)
Lemma scenario_is_not_four_commands :
  ~ (length (GCode.parseGCode GCode.scenarioText) = 4%nat
     /\ length (GCode.createToolPath (GCode.parseGCode GCode.scenarioText)) = 8%nat
     /\ last (GCode.createToolPath (GCode.parseGCode GCode.scenarioText)) GCode.origin
        = Vector3.new (Finite 50) (Finite 50) (Finite (-1))).
Proof. intros [H _]. vm_compute in H. discriminate H. Qed.

(** C1, amended: on the seven-line text the interpreter drops the two
    modal-only lines G21 and G90 and returns the five motion commands of
    the five remaining lines; the path builder gives ten vertices, the
    last of which is (50,50,-1). *)
Theorem scenario_five_commands_ten_vertices :
  GCode.lineCommand "G21" = None
  /\ GCode.lineCommand "G90" = None
  /\ GCode.parseGCode GCode.scenarioText
     = [ GCode.mkCommand "G0" None None (Some (Finite 5));
         GCode.mkCommand "G0" (Some (Finite 0)) (Some (Finite 0)) None;
         GCode.mkCommand "G1" None None (Some (Finite (-1)));
         GCode.mkCommand "G1" (Some (Finite 50)) None None;
         GCode.mkCommand "G1" None (Some (Finite 50)) None ]
  /\ GCode.createToolPath (GCode.parseGCode GCode.scenarioText)
     = [ Vector3.new (Finite 0) (Finite 0) (Finite 0);
         Vector3.new (Finite 0) (Finite 0) (Finite 5);
         Vector3.new (Finite 0) (Finite 0) (Finite 5);
         Vector3.new (Finite 0) (Finite 0) (Finite 5);
         Vector3.new (Finite 0) (Finite 0) (Finite 5);
         Vector3.new (Finite 0) (Finite 0) (Finite (-1));
         Vector3.new (Finite 0) (Finite 0) (Finite (-1));
         Vector3.new (Finite 50) (Finite 0) (Finite (-1));
         Vector3.new (Finite 50) (Finite 0) (Finite (-1));
         Vector3.new (Finite 50) (Finite 50) (Finite (-1)) ]
  /\ length (GCode.parseGCode GCode.scenarioText) = 5%nat
  /\ length (GCode.createToolPath (GCode.parseGCode GCode.scenarioText)) = 10%nat
  /\ last (GCode.createToolPath (GCode.parseGCode GCode.scenarioText)) GCode.origin
     = Vector3.new (Finite 50) (Finite 50) (Finite (-1)).
Proof. repeat split; vm_compute; reflexivity. Qed.

(** ** The path builder *)
Section PathBuilderFacts.
Import GCode.

Lemma pathStep_length (commands : list GCodeCommand) :
  forall (points : list Vector3.t) (position : Vector3.t),
  exists k : nat,
    length (fst (fold_left pathStep commands (points, position)))
    = (length points + 2 * k)%nat.
Proof.
  induction commands as [|command commands IH]; intros points position.
  - exists 0%nat. cbn. lia.
  - cbn [fold_left]. unfold pathStep at 2.
    destruct (isMotion command).
    + destruct (IH (points ++ [position; moveTo position command])
                   (moveTo position command)) as [k Hk].
      exists (S k). rewrite Hk, length_app. cbn [length]. lia.
    + apply IH.
Qed.

Lemma tracePoints_even (commands : list GCodeCommand) :
  exists k : nat, length (tracePoints commands) = (2 * k)%nat.
Proof.
  destruct (pathStep_length commands [] origin) as [k Hk].
  exists k. exact Hk.
Qed.

Lemma tracePoints_no_motion (commands : list GCodeCommand) :
  forallb (fun command => negb (isMotion command)) commands = true ->
  tracePoints commands = [].
Proof.
  unfold tracePoints. generalize origin.
  induction commands as [|command commands IH]; intros position H.
  - reflexivity.
  - cbn [forallb] in H. apply andb_prop in H. destruct H as [Hc Hrest].
    cbn [fold_left]. unfold pathStep at 2.
    apply negb_true_iff in Hc. rewrite Hc. apply IH. exact Hrest.
Qed.

Lemma createToolPath_length (commands : list GCodeCommand) :
  (2 <= length (createToolPath commands))%nat.
Proof.
  unfold createToolPath.
  destruct (length (tracePoints commands) <? 2)%nat eqn:E.
  - rewrite length_app. cbn. lia.
  - apply Nat.ltb_ge in E. exact E.
Qed.

End PathBuilderFacts.

(** C3: two linear moves, the first with only x and the second with only
    y, give the four vertices (0,0,0), (x,0,0), (x,0,0), (x,y,0): the
    second move keeps the x the first one reached.  With x = 10 and y = 5
    this is the sequence of the claim. *)
Theorem modal_carry_over :
  GCode.createToolPath
    [ GCode.mkCommand "G1" (Some (Finite 10)) None None;
      GCode.mkCommand "G1" None (Some (Finite 5)) None ]
  = [ Vector3.new (Finite 0) (Finite 0) (Finite 0);
      Vector3.new (Finite 10) (Finite 0) (Finite 0);
      Vector3.new (Finite 10) (Finite 0) (Finite 0);
      Vector3.new (Finite 10) (Finite 5) (Finite 0) ]
  /\ forall a b : number,
      GCode.createToolPath
        [ GCode.mkCommand "G1" (Some a) None None;
          GCode.mkCommand "G1" None (Some b) None ]
      = [ Vector3.new (Finite 0) (Finite 0) (Finite 0);
          Vector3.new a (Finite 0) (Finite 0);
          Vector3.new a (Finite 0) (Finite 0);
          Vector3.new a b (Finite 0) ].
Proof. split; [reflexivity | intros a b; reflexivity]. Qed.

(** C8: when the motion commands of a sequence give fewer than two
    points, the path builder returns the two-point segment from
    (-10,0,0) to (10,0,0), whose midpoint is the origin. *)
Theorem degenerate_path_fallback
    (commands : list GCode.GCodeCommand)
    (Hfew : (length (GCode.tracePoints commands) < 2)%nat) :
  GCode.createToolPath commands
  = [ Vector3.new (Finite (-10)) (Finite 0) (Finite 0);
      Vector3.new (Finite 10) (Finite 0) (Finite 0) ].
Proof.
  unfold GCode.createToolPath.
  destruct (tracePoints_even commands) as [k Hk].
  assert (GCode.tracePoints commands = []) as E.
  { destruct (GCode.tracePoints commands); [reflexivity | cbn in Hk, Hfew; lia]. }
  rewrite E. reflexivity.
Qed.

Lemma degenerate_path_fallback_witness :
  GCode.createToolPath [GCode.mkCommand "G4" (Some (Finite 2)) None None]
  = [ Vector3.new (Finite (-10)) (Finite 0) (Finite 0);
      Vector3.new (Finite 10) (Finite 0) (Finite 0) ].
Proof.
  apply (degenerate_path_fallback [GCode.mkCommand "G4" (Some (Finite 2)) None None]).
  cbn. lia.
Defined.

(** ** The playback controller *)
Section PlaybackFacts.
Import Playback.

Lemma animate_progress (s : State) (t : Q) :
  isPlaying s = true ->
  progress (animate t s)
  = Qmin 1 (progress s
            + (t - (if Qeq_bool (lastTime s) 0 then t else lastTime s))
              / animationDuration).
Proof.
  intros Hp. unfold animate. rewrite Hp. cbn [negb].
  destruct (Qle_bool 1 _); reflexivity.
Qed.

Lemma animate_lastTime (s : State) (t : Q) :
  isPlaying s = true ->
  lastTime (animate t s) = 0 \/ lastTime (animate t s) = t.
Proof.
  intros Hp. unfold animate. rewrite Hp. cbn [negb].
  destruct (Qle_bool 1 _); cbn; auto.
Qed.

Lemma frame_step (s : State) (t : Q) :
  progress s <= 1 ->
  lastTime s == 0 \/ lastTime s <= t ->
  progress s <= progress (step s (Frame t))
  /\ progress (step s (Frame t)) <= 1
  /\ (lastTime (step s (Frame t)) == 0
      \/ lastTime (step s (Frame t)) <= t).
Proof.
  intros Hle Hready. cbn [step].
  destruct (isPlaying s) eqn:Hp.
  - rewrite (animate_progress s t Hp).
    repeat split.
    + apply Q.min_glb; [exact Hle|].
      assert (0 <= t - (if Qeq_bool (lastTime s) 0 then t else lastTime s)) as Hd.
      { destruct (Qeq_bool (lastTime s) 0) eqn:E.
        - lra.
        - destruct Hready as [H0|Hlt].
          + apply Qeq_bool_iff in H0. congruence.
          + lra. }
      unfold animationDuration, Qdiv.
      assert (0 <= / (5000 # 1)) as Hinv by (vm_compute; discriminate).
      pose proof (Qmult_le_0_compat _ _ Hd Hinv). lra.
    + apply Q.le_min_l.
    + destruct (animate_lastTime s t Hp) as [-> | ->]; [left | right]; lra.
  - repeat split; [lra | exact Hle | exact Hready].
Qed.

(** Over a run of frames with strictly increasing times, starting from
    a state whose stored time is not in the future, progress never
    decreases from one frame to the next. *)
Lemma frames_monotone (times : list Q) :
  forall s : State,
    progress s <= 1 ->
    Sorted Qlt times ->
    ready s times ->
    Sorted Qle (progress s :: frames s times).
Proof.
  induction times as [|t rest IH]; intros s Hle Hsorted Hready.
  - repeat constructor.
  - cbn [frames]. cbn [ready] in Hready.
    destruct (frame_step s t Hle Hready) as (Hmono & Hle' & Hlast).
    constructor; [|constructor; exact Hmono].
    apply IH; [exact Hle' | now inversion Hsorted |].
    destruct rest as [|t' rest']; [exact I|].
    cbn [ready]. inversion Hsorted as [|? ? _ Hhd]. inversion Hhd; subst.
    destruct Hlast as [H0|Hlt]; [left; exact H0 | right; lra].
Qed.

(** A frame that finds no stored time applies no delta. *)
Lemma first_frame_no_delta (s : State) (t : Q) :
  isPlaying s = true -> lastTime s == 0 -> progress s <= 1 ->
  progress (step s (Frame t)) == progress s.
Proof.
  intros Hp H0 Hle. cbn [step]. rewrite Hp, (animate_progress s t Hp).
  apply Qeq_bool_iff in H0. rewrite H0.
  assert (progress s + (t - t) / animationDuration == progress s) as ->.
  { unfold animationDuration. field. }
  apply Q.min_r. exact Hle.
Qed.


End PlaybackFacts.

(** C5, as the claim states it, fails: a seek to the middle of the path
    while the controller is playing leaves it playing. *)
Lemma seek_while_playing_keeps_playing :
  Playback.phase (Playback.mkState (1 # 5) true 2000) = Playback.Playing
  /\ Playback.phase
       (Playback.handleProgressChange (1 # 2) (Playback.mkState (1 # 5) true 2000))
     = Playback.Playing
  /\ Playback.phase
       (Playback.handleProgressChange (1 # 2) (Playback.mkState (1 # 5) true 2000))
     <> Playback.Paused.
Proof. repeat split; vm_compute; discriminate. Qed.

(** The handler stores the value it is given as it is; keeping it within
    [0,1] is left to the slider. *)
Remark seek_does_not_clamp (s : Playback.State) (v : Q) :
  Playback.progress (Playback.handleProgressChange v s) = v.
Proof. reflexivity. Qed.

(** C5, amended: a seek to a value of the slider's range [0,1] sets
    progress to that value, which is its own clamp to [0,1], whatever
    time has elapsed (the stored frame time is left alone).  It stops
    playback only when the value is 1, and the controller is then
    Completed; for a smaller value the playing flag is left as it was, so
    a controller that was not playing is Paused after a seek strictly
    between 0 and 1 and a playing one goes on playing. *)
Theorem seek_sets_progress
    (s : Playback.State) (v : Q) (Hrange : 0 <= v <= 1) :
  let s' := Playback.handleProgressChange v s in
  Playback.progress s' = v
  /\ Playback.progress s' == Playback.clamp v 0 1
  /\ Playback.lastTime s' = Playback.lastTime s
  /\ (v == 1 -> Playback.isPlaying s' = false /\ Playback.phase s' = Playback.Completed)
  /\ (v < 1 -> Playback.isPlaying s' = Playback.isPlaying s)
  /\ (0 < v < 1 -> Playback.isPlaying s = false -> Playback.phase s' = Playback.Paused).
Proof.
  destruct Hrange as [H0 H1]. cbn zeta.
  split; [reflexivity|]. split.
  { cbn [Playback.handleProgressChange Playback.progress]. unfold Playback.clamp.
    rewrite (Q.min_r 1 v H1). symmetry. apply Q.max_r. exact H0. }
  split; [reflexivity|]. split.
  - intros Hv.
    assert (Qle_bool 1 v = true) as E1 by (apply Qle_bool_iff; lra).
    assert (Qle_bool v 0 = false) as E0.
    { destruct (Qle_bool v 0) eqn:E; [|reflexivity].
      apply Qle_bool_iff in E. lra. }
    unfold Playback.phase, Playback.handleProgressChange.
    cbn [Playback.isPlaying Playback.progress]. rewrite E1, E0. auto.
  - assert (v < 1 -> Qle_bool 1 v = false) as E1.
    { intros Hv. destruct (Qle_bool 1 v) eqn:E; [|reflexivity].
      apply Qle_bool_iff in E. lra. }
    split.
    + intros Hv.
      cbn [Playback.handleProgressChange Playback.isPlaying].
      rewrite (E1 Hv). reflexivity.
    + intros [Hpos Hv] Hstopped.
      assert (Qle_bool v 0 = false) as E0.
      { destruct (Qle_bool v 0) eqn:E; [|reflexivity].
        apply Qle_bool_iff in E. lra. }
      unfold Playback.phase, Playback.handleProgressChange.
      cbn [Playback.isPlaying Playback.progress].
      rewrite (E1 Hv), E0, Hstopped. reflexivity.
Qed.

Lemma seek_sets_progress_witness :
  Playback.progress
    (Playback.handleProgressChange (1 # 2) (Playback.mkState (1 # 5) true 2000))
  = 1 # 2.
Proof.
  assert (0 <= 1 # 2 <= 1) as Hrange by (split; discriminate).
  exact (proj1 (seek_sets_progress (Playback.mkState (1 # 5) true 2000) (1 # 2) Hrange)).
Defined.

(** C7: the code at the failing input.  Play, two frames one second
    apart, pause, play again, and a first frame seven seconds after the
    last frame before the pause: the stored frame time survived the
    pause, so this first frame adds the whole seven seconds and progress
    goes from 1/5 straight to 1. *)
Theorem resume_after_pause_applies_delta :
  let paused :=
    Playback.run Playback.initial
      [Playback.Toggle; Playback.Frame 1000; Playback.Frame 2000; Playback.Toggle] in
  let resumed := Playback.step paused Playback.Toggle in
  let after := Playback.step resumed (Playback.Frame 9000) in
  Playback.phase paused = Playback.Paused
  /\ Playback.progress paused == 1 # 5
  /\ Playback.phase resumed = Playback.Playing
  /\ Playback.progress resumed == 1 # 5
  /\ Playback.lastTime resumed == 2000
  /\ Playback.progress after == 1
  /\ Playback.phase after = Playback.Completed.
Proof. repeat split. Qed.

(** ** The partial-path renderer *)
Section RendererFacts.
Import Renderer.

Lemma pointsToShow_cases (totalPoints : nat) (p : Q) :
  (p <= 0 -> pointsToShow totalPoints p = 0%Z)
  /\ (1 <= p -> pointsToShow totalPoints p = Z.of_nat totalPoints)
  /\ (0 < p < 1 ->
      pointsToShow totalPoints p
      = Z.max 2 (Qceiling (inject_Z (Z.of_nat totalPoints) * p))).
Proof.
  unfold pointsToShow. repeat split.
  - intros H. apply Qle_bool_iff in H. now rewrite H.
  - intros H. destruct (Qle_bool p 0) eqn:E0.
    + apply Qle_bool_iff in E0. lra.
    + apply Qle_bool_iff in H. now rewrite H.
  - intros [H0 H1].
    destruct (Qle_bool p 0) eqn:E0; [apply Qle_bool_iff in E0; lra|].
    destruct (Qle_bool 1 p) eqn:E1; [apply Qle_bool_iff in E1; lra|].
    reflexivity.
Qed.


End RendererFacts.

(** With no path points the renderer returns before it renders anything,
    whatever the progress. *)
Remark empty_path_renders_nothing (sceneReady : bool) (p : Q) :
  Renderer.updatePathAnimation [] sceneReady p = None.
Proof. reflexivity. Qed.

(** C6, as the claim states it, fails on the lists shorter than two
    points.  On the empty list (the state before a path is loaded) at
    progress 1/2 the count [pointsToShow] is 2 and nothing is rendered;
    on a list of one vertex it is 2 as well and one point is shown. *)
Lemma short_list_shows_fewer_points :
  Renderer.pointsToShow 0 (1 # 2) = 2%Z
  /\ Renderer.updatePathAnimation [] true (1 # 2) = None
  /\ Renderer.pointsToShow 1 (1 # 2) = 2%Z
  /\ Renderer.updatePathAnimation [GCode.origin] true (1 # 2) = Some [GCode.origin]
  /\ length [GCode.origin] <> Z.to_nat (Renderer.pointsToShow 1 (1 # 2))
  /\ Renderer.pointsToShowDouble 0 (1 # 2) = 2%Z
  /\ Renderer.updatePathAnimationDouble [] true (1 # 2) = None
  /\ Renderer.pointsToShowDouble 1 (1 # 2) = 2%Z
  /\ Renderer.updatePathAnimationDouble [GCode.origin] true (1 # 2)
     = Some [GCode.origin].
Proof. repeat split; try (vm_compute; reflexivity). vm_compute. discriminate. Qed.

(** ** Double rounding *)
Section DoubleRounding.

Lemma pow2_pos (e : Z) : 0 < pow2 e.
Proof. apply Qpower_0_lt. reflexivity. Qed.

Lemma pow2_add (a b : Z) : pow2 (a + b) == pow2 a * pow2 b.
Proof. apply Qpower_plus. discriminate. Qed.

Lemma pow2_le (a b : Z) : (a <= b)%Z -> pow2 a <= pow2 b.
Proof. intros H. apply Qpower_le_compat_l; [exact H | discriminate]. Qed.

Lemma pow2_cancel (e : Z) : pow2 (- e) * pow2 e == 1.
Proof. rewrite <- pow2_add. replace (- e + e)%Z with 0%Z by lia. reflexivity. Qed.

Lemma pow2_Z (n : Z) : (0 <= n)%Z -> pow2 n == inject_Z (2 ^ n).
Proof. intros H. unfold pow2. rewrite Zpower_Qpower by exact H. reflexivity. Qed.

Lemma pow2_succ (a : Z) : pow2 (a + 1) == 2 * pow2 a.
Proof. rewrite pow2_add. change (pow2 1) with 2. ring. Qed.

(** The difference of the bit lengths of numerator and denominator is
    the logarithm or one above it. *)
Lemma log2_estimate (x : Q) :
  0 < x ->
  let k := (Z.log2 (Qnum x) - Z.log2 (Zpos (Qden x)))%Z in
  pow2 (k - 1) <= x /\ x < pow2 (k + 1).
Proof.
  intros Hx. destruct x as [n d]. cbn [Qnum Qden].
  assert (0 < n)%Z as Hn by (unfold Qlt in Hx; cbn in Hx; lia).
  set (a := Z.log2 n). set (b := Z.log2 (Zpos d)).
  destruct (Z.log2_spec n Hn) as [Ha1 Ha2]. fold a in Ha1, Ha2.
  destruct (Z.log2_spec (Zpos d) (eq_refl : (0 < Zpos d)%Z)) as [Hb1 Hb2].
  fold b in Hb1, Hb2.
  assert (0 <= a)%Z as Ha0 by apply Z.log2_nonneg.
  assert (0 <= b)%Z as Hb0 by apply Z.log2_nonneg.
  rewrite Zle_Qle, <- pow2_Z in Ha1 by lia.
  rewrite Zlt_Qlt, <- Z.add_1_r, <- pow2_Z in Ha2 by lia.
  rewrite Zle_Qle, <- pow2_Z in Hb1 by lia.
  rewrite Zlt_Qlt, <- Z.add_1_r, <- pow2_Z in Hb2 by lia.
  assert (n # d == inject_Z n / inject_Z (Zpos d)) as Hq by apply Qmake_Qdiv.
  assert (0 < inject_Z (Zpos d)) as Hd by reflexivity.
  assert ((n # d) * inject_Z (Zpos d) == inject_Z n) as Hmul.
  { rewrite Hq. field. intros H. rewrite H in Hd. discriminate. }
  cbn zeta.
  assert (pow2 (a - b - 1) * pow2 (b + 1) == pow2 a) as E1.
  { rewrite <- pow2_add. replace (a - b - 1 + (b + 1))%Z with a by lia. reflexivity. }
  assert (pow2 (a - b + 1) * pow2 b == pow2 (a + 1)) as E2.
  { rewrite <- pow2_add. replace (a - b + 1 + b)%Z with (a + 1)%Z by lia. reflexivity. }
  pose proof (pow2_pos (a - b - 1)). pose proof (pow2_pos (a - b + 1)).
  pose proof (pow2_pos b). pose proof (pow2_pos (b + 1)).
  split.
  - apply Qnot_lt_le. intros Hc. 
    assert ((n # d) * inject_Z (Zpos d) < pow2 (a - b - 1) * pow2 (b + 1)) by nra.
    lra.
  - apply Qnot_le_lt. intros Hc.
    assert (pow2 (a - b + 1) * pow2 b <= (n # d) * inject_Z (Zpos d)) by nra.
    lra.
Qed.

Lemma ilog2_spec (x : Q) :
  0 < x -> pow2 (ilog2 x) <= x /\ x < pow2 (ilog2 x + 1).
Proof.
  intros Hx. destruct (log2_estimate x Hx) as [Hlo Hhi]. cbn zeta in *.
  unfold ilog2.
  set (k := (Z.log2 (Qnum x) - Z.log2 (Zpos (Qden x)))%Z) in *.
  destruct (Qle_bool (pow2 k) x) eqn:E.
  - apply Qle_bool_iff in E. split; assumption.
  - split; [exact Hlo|].
    replace (k - 1 + 1)%Z with k by lia.
    apply Qnot_le_lt. intros H. apply Qle_bool_iff in H. congruence.
Qed.

Lemma ilog2_monotone (x y : Q) :
  0 < x -> x <= y -> (ilog2 x <= ilog2 y)%Z.
Proof.
  intros Hx Hxy.
  assert (0 < y) as Hy by lra.
  destruct (ilog2_spec x Hx) as [Hx1 _].
  destruct (ilog2_spec y Hy) as [_ Hy2].
  destruct (Z.le_gt_cases (ilog2 x) (ilog2 y)) as [H|H]; [exact H|].
  assert (pow2 (ilog2 y + 1) <= pow2 (ilog2 x)) by (apply pow2_le; lia).
  lra.
Qed.

Lemma roundHalfEven_bounds (q : Q) :
  (Qfloor q <= roundHalfEven q <= Qfloor q + 1)%Z.
Proof.
  unfold roundHalfEven.
  destruct (Qcompare (q - inject_Z (Qfloor q)) (1 # 2)); [|lia|lia].
  destruct (Z.even (Qfloor q)); lia.
Qed.

Lemma roundHalfEven_monotone (p q : Q) :
  p <= q -> (roundHalfEven p <= roundHalfEven q)%Z.
Proof.
  intros Hpq.
  pose proof (Qfloor_resp_le p q Hpq) as Hf.
  pose proof (roundHalfEven_bounds p) as Hp.
  pose proof (roundHalfEven_bounds q) as Hq.
  destruct (Z.eq_dec (Qfloor p) (Qfloor q)) as [E|E]; [|lia].
  unfold roundHalfEven in *. rewrite E in *.
  destruct (Qcompare (p - inject_Z (Qfloor q)) (1 # 2)) eqn:Cp;
  destruct (Qcompare (q - inject_Z (Qfloor q)) (1 # 2)) eqn:Cq;
    try rewrite <- Qeq_alt in *; try rewrite <- Qlt_alt in *;
    try rewrite <- Qgt_alt in *;
    try (destruct (Z.even (Qfloor q))); try lia; lra.
Qed.

Lemma roundHalfEven_Z (m : Z) : roundHalfEven (inject_Z m) = m.
Proof.
  unfold roundHalfEven. rewrite Qfloor_Z.
  assert (Qcompare (inject_Z m - inject_Z m) (1 # 2) = Lt) as ->.
  { rewrite <- Qlt_alt. lra. }
  reflexivity.
Qed.

Lemma roundHalfEven_ge (m : Z) (q : Q) :
  inject_Z m <= q -> (m <= roundHalfEven q)%Z.
Proof.
  intros H. rewrite <- (roundHalfEven_Z m). apply roundHalfEven_monotone. exact H.
Qed.

Lemma roundHalfEven_le (m : Z) (q : Q) :
  q <= inject_Z m -> (roundHalfEven q <= m)%Z.
Proof.
  intros H. rewrite <- (roundHalfEven_Z m). apply roundHalfEven_monotone. exact H.
Qed.

Lemma scale_lt (x B : Q) (e : Z) : x < B * pow2 e -> x * pow2 (- e) < B.
Proof.
  intros H.
  assert (B == (B * pow2 e) * pow2 (- e)) as ->.
  { rewrite <- Qmult_assoc, (Qmult_comm (pow2 e)), pow2_cancel. ring. }
  apply Qmult_lt_compat_r; [apply pow2_pos | exact H].
Qed.

Lemma scale_ge (x B : Q) (e : Z) : B * pow2 e <= x -> B <= x * pow2 (- e).
Proof.
  intros H.
  assert (B == (B * pow2 e) * pow2 (- e)) as ->.
  { rewrite <- Qmult_assoc, (Qmult_comm (pow2 e)), pow2_cancel. ring. }
  apply Qmult_le_compat_r; [exact H | apply Qlt_le_weak, pow2_pos].
Qed.

Lemma roundPositive_monotone (x y : Q) :
  0 < x -> x <= y -> roundPositive x <= roundPositive y.
Proof.
  intros Hx Hxy. assert (0 < y) as Hy by lra.
  pose proof (ilog2_monotone x y Hx Hxy) as Hlog.
  unfold roundPositive.
  set (ex := Z.max (ilog2 x - 52) (-1074)).
  set (ey := Z.max (ilog2 y - 52) (-1074)).
  assert (ex <= ey)%Z as Hexy by (unfold ex, ey; lia).
  destruct (Z.eq_dec ex ey) as [E|E].
  - rewrite E.
    pose proof (pow2_pos ey). pose proof (pow2_pos (- ey)).
    assert (x * pow2 (- ey) <= y * pow2 (- ey)) as Hs
      by (apply Qmult_le_compat_r; [exact Hxy | apply Qlt_le_weak, pow2_pos]).
    apply roundHalfEven_monotone in Hs.
    rewrite Zle_Qle in Hs.
    apply Qmult_le_compat_r; [exact Hs | apply Qlt_le_weak, pow2_pos].
  - assert (ey = ilog2 y - 52)%Z as Ey by (unfold ex, ey in *; lia).
    assert (ilog2 x - 52 <= ex)%Z as Ex by (unfold ex; lia).
    destruct (ilog2_spec x Hx) as [_ Hx2].
    destruct (ilog2_spec y Hy) as [Hy1 _].
    assert (x * pow2 (- ex) <= inject_Z (2 ^ 53)) as Hxs.
    { rewrite <- pow2_Z by lia. apply Qlt_le_weak, scale_lt.
      assert (pow2 (ilog2 x + 1) <= pow2 (53 + ex)) as Hp by (apply pow2_le; lia).
      rewrite (pow2_add 53 ex) in Hp. exact (Qlt_le_trans _ _ _ Hx2 Hp). }
    apply roundHalfEven_le in Hxs. rewrite Zle_Qle in Hxs.
    assert (inject_Z (2 ^ 52) <= y * pow2 (- ey)) as Hys.
    { rewrite <- pow2_Z by lia. apply scale_ge.
      assert (pow2 (52 + ey) <= pow2 (ilog2 y)) as Hp by (apply pow2_le; lia).
      rewrite (pow2_add 52 ey) in Hp. exact (Qle_trans _ _ _ Hp Hy1). }
    apply roundHalfEven_ge in Hys. rewrite Zle_Qle in Hys.
    rewrite <- !pow2_Z in Hxs, Hys by lia.
    apply Qle_trans with (pow2 53 * pow2 ex);
      [apply Qmult_le_compat_r; [exact Hxs | apply Qlt_le_weak, pow2_pos]|].
    apply Qle_trans with (pow2 52 * pow2 ey);
      [|apply Qmult_le_compat_r; [exact Hys | apply Qlt_le_weak, pow2_pos]].
    rewrite <- !pow2_add. apply pow2_le. lia.
Qed.

Lemma roundPositive_nonneg (x : Q) : 0 < x -> 0 <= roundPositive x.
Proof.
  intros Hx. unfold roundPositive.
  set (e := Z.max (ilog2 x - 52) (-1074)).
  assert (inject_Z 0 <= x * pow2 (- e)) as H0.
  { change (inject_Z 0) with 0. apply Qmult_le_0_compat;
      [apply Qlt_le_weak, Hx | apply Qlt_le_weak, pow2_pos]. }
  apply roundHalfEven_ge in H0. rewrite Zle_Qle in H0.
  change (inject_Z 0) with 0 in H0.
  apply Qmult_le_0_compat; [exact H0 | apply Qlt_le_weak, pow2_pos].
Qed.

Lemma roundDouble_monotone (x y : Q) :
  0 <= x -> x <= y -> roundDouble x <= roundDouble y.
Proof.
  intros Hx Hxy. unfold roundDouble.
  destruct (Qcompare x 0) eqn:Cx;
    [rewrite <- Qeq_alt in Cx | rewrite <- Qlt_alt in Cx; lra
     | rewrite <- Qgt_alt in Cx];
  (destruct (Qcompare y 0) eqn:Cy;
    [rewrite <- Qeq_alt in Cy | rewrite <- Qlt_alt in Cy; lra
     | rewrite <- Qgt_alt in Cy]); try lra.
  - apply roundPositive_nonneg. exact Cy.
  - apply roundPositive_monotone; assumption.
Qed.

Lemma roundDouble_integer (n : Z) :
  (0 <= n < 2 ^ 53)%Z -> roundDouble (inject_Z n) == inject_Z n.
Proof.
  intros [H0 H53]. unfold roundDouble.
  destruct (Qcompare (inject_Z n) 0) eqn:C;
    [rewrite <- Qeq_alt in C; symmetry; exact C
    | rewrite <- Qlt_alt in C; rewrite Zle_Qle in H0; change (inject_Z 0) with 0 in H0; lra
    | rewrite <- Qgt_alt in C].
  unfold roundPositive.
  set (e := Z.max (ilog2 (inject_Z n) - 52) (-1074)).
  destruct (ilog2_spec (inject_Z n) C) as [Hlo _].
  assert (ilog2 (inject_Z n) < 53)%Z as Hlog.
  { destruct (Z.lt_ge_cases (ilog2 (inject_Z n)) 53) as [H|H]; [exact H|].
    assert (pow2 53 <= pow2 (ilog2 (inject_Z n))) as Hp by (apply pow2_le; lia).
    rewrite pow2_Z in Hp by lia. rewrite Zlt_Qlt in H53. lra. }
  assert (e <= 0)%Z as He by (unfold e; lia).
  assert (inject_Z n * pow2 (- e) == inject_Z (n * 2 ^ (- e))) as Hs.
  { rewrite inject_Z_mult, pow2_Z by lia. reflexivity. }
  assert (roundHalfEven (inject_Z n * pow2 (- e)) = (n * 2 ^ (- e))%Z) as ->.
  { apply Z.le_antisymm;
      [apply roundHalfEven_le | apply roundHalfEven_ge]; rewrite Hs; apply Qle_refl. }
  rewrite <- Hs. pose proof (pow2_cancel e) as Hc.
  rewrite <- Qmult_assoc, Hc. ring.
Qed.

End DoubleRounding.

(** The double product and the exact product give different counts: 50
    points at the slider value 0.14 show 8 points, where the exact
    product 7 would show 7; 30 points at 0.1 show 3, where the exact
    product of 30 and the double 0.1 lies above 3. *)
Remark double_product_counts :
  Renderer.pointsToShowDouble 50 (roundDouble (14 # 100)) = 8%Z
  /\ Renderer.pointsToShow 50 (14 # 100) = 7%Z
  /\ Renderer.pointsToShowDouble 30 (roundDouble (1 # 10)) = 3%Z
  /\ Renderer.pointsToShow 30 (roundDouble (1 # 10)) = 4%Z.
Proof. repeat split; vm_compute; reflexivity. Qed.

Lemma pointsToShowDouble_bounds (totalPoints : nat) (p : Q) :
  (2 <= totalPoints)%nat ->
  (Z.of_nat totalPoints < 2 ^ 53)%Z ->
  (0 <= Renderer.pointsToShowDouble totalPoints p <= Z.of_nat totalPoints)%Z.
Proof.
  intros Htwo Hsize. unfold Renderer.pointsToShowDouble.
  destruct (Qle_bool p 0) eqn:E0; [lia|].
  destruct (Qle_bool 1 p) eqn:E1; [lia|].
  assert (0 < p) as H0.
  { apply Qnot_le_lt. intros H. apply Qle_bool_iff in H. congruence. }
  assert (p < 1) as H1.
  { apply Qnot_le_lt. intros H. apply Qle_bool_iff in H. congruence. }
  assert (0 <= inject_Z (Z.of_nat totalPoints)) as Hn.
  { rewrite <- (Zle_Qle 0). lia. }
  assert (roundDouble (inject_Z (Z.of_nat totalPoints) * p)
          <= inject_Z (Z.of_nat totalPoints)) as Hround.
  { rewrite <- (roundDouble_integer (Z.of_nat totalPoints)) at 2 by lia.
    apply roundDouble_monotone; nra. }
  apply Qceiling_resp_le in Hround. rewrite Qceiling_Z in Hround. lia.
Qed.

(** C6, amended: for every full vertex list of at least two points (the
    path builder gives no shorter one; an array has fewer than 2^53
    elements) and every progress value, once the scene exists, the
    renderer shows exactly [pointsToShow] points, the first
    [pointsToShow] vertices of the full list, where [pointsToShow] is 0
    when progress is at most 0, the total when progress is at least 1,
    and max(2, ceil(total * progress)) in between, the product being the
    double product.  On an empty list it renders nothing. *)
Theorem visible_points
    (completePathPoints : list Vector3.t) (p : Q)
    (Htwo : (2 <= length completePathPoints)%nat)
    (Hsize : (Z.of_nat (length completePathPoints) < 2 ^ 53)%Z) :
  let total := length completePathPoints in
  let n := Renderer.pointsToShowDouble total p in
  (exists visible,
      Renderer.updatePathAnimationDouble completePathPoints true p = Some visible
      /\ visible = firstn (Z.to_nat n) completePathPoints
      /\ Z.of_nat (length visible) = n)
  /\ (p <= 0 -> n = 0%Z)
  /\ (1 <= p -> n = Z.of_nat total)
  /\ (0 < p < 1 ->
      n = Z.max 2
            (Qceiling (roundDouble (inject_Z (Z.of_nat total) * p))))
  /\ (forall sceneReady,
        Renderer.updatePathAnimationDouble [] sceneReady p = None).
Proof.
  cbn zeta.
  pose proof (pointsToShowDouble_bounds (length completePathPoints) p Htwo Hsize)
    as [Hlo Hhi].
  split.
  { exists (firstn (Z.to_nat (Renderer.pointsToShowDouble (length completePathPoints) p))
                   completePathPoints).
    split; [|split; [reflexivity|]].
    - unfold Renderer.updatePathAnimationDouble.
      destruct (length completePathPoints =? 0)%nat eqn:E;
        [apply Nat.eqb_eq in E; lia|].
      cbn [negb orb]. unfold slice0.
      destruct (Renderer.pointsToShowDouble (length completePathPoints) p <? 0)%Z
        eqn:En; [apply Z.ltb_lt in En; lia | reflexivity].
    - rewrite length_firstn. lia. }
  unfold Renderer.pointsToShowDouble. repeat split.
  - intros H. apply Qle_bool_iff in H. now rewrite H.
  - intros H. destruct (Qle_bool p 0) eqn:E0.
    + apply Qle_bool_iff in E0. lra.
    + apply Qle_bool_iff in H. now rewrite H.
  - intros [H0 H1].
    destruct (Qle_bool p 0) eqn:E0; [apply Qle_bool_iff in E0; lra|].
    destruct (Qle_bool 1 p) eqn:E1; [apply Qle_bool_iff in E1; lra|].
    reflexivity.
Qed.

Lemma visible_points_witness :
  exists visible,
    Renderer.updatePathAnimationDouble Assets.test_gcode_path true
      (roundDouble (14 # 100))
    = Some visible
    /\ visible
       = firstn
           (Z.to_nat
              (Renderer.pointsToShowDouble (length Assets.test_gcode_path)
                 (roundDouble (14 # 100))))
           Assets.test_gcode_path
    /\ Z.of_nat (length visible)
       = Renderer.pointsToShowDouble (length Assets.test_gcode_path)
           (roundDouble (14 # 100)).
Proof.
  assert (2 <= length Assets.test_gcode_path)%nat as Htwo by (cbn; lia).
  assert (Z.of_nat (length Assets.test_gcode_path) < 2 ^ 53)%Z as Hsize
    by reflexivity.
  exact (proj1 (visible_points Assets.test_gcode_path (roundDouble (14 # 100))
                  Htwo Hsize)).
Defined.

(** ** The resource slots *)
Section HookFacts.
Import Hook.
Context {Resource : Type}.

Lemma lookup_forget_other (a b : nat) (loads : list (nat * option Resource)) :
  a <> b -> lookup a (filter (fun kp => negb (fst kp =? b)%nat) loads) = lookup a loads.
Proof.
  intros Hab. induction loads as [|[k p] loads IH]; [reflexivity|].
  cbn [filter fst lookup].
  destruct (k =? b)%nat eqn:Ekb; cbn [negb].
  - apply Nat.eqb_eq in Ekb. subst k.
    assert ((b =? a)%nat = false) as -> by (apply Nat.eqb_neq; congruence).
    exact IH.
  - cbn [lookup]. rewrite IH. reflexivity.
Qed.

(** After two triggers in a row both loads are in flight: the first
    captured the occupant of the slot, the second captured nothing. *)
Lemma two_triggers (s : State Resource) (a b : nat) :
  a <> b ->
  slot (trigger b (trigger a s)) = None
  /\ lookup a (pending (trigger b (trigger a s))) = Some (ref s)
  /\ lookup b (pending (trigger b (trigger a s))) = Some None
  /\ disposed (trigger b (trigger a s))
     = cleanup Resource (ref s) (cleanup Resource (previous s) (disposed s)).
Proof.
  intros Hab. unfold trigger at 1 3 5 7. unfold render.
  cbn [slot pending disposed lookup previous ref].
  rewrite Nat.eqb_refl.
  assert ((b =? a)%nat = false) as -> by (apply Nat.eqb_neq; congruence).
  unfold trigger, render. cbn [slot pending disposed lookup previous ref].
  rewrite Nat.eqb_refl. auto.
Qed.

(** A load in flight that settles installs its outcome and disposes the
    resource it captured when it was triggered. *)
Lemma resolve_pending (s : State Resource) (id : nat)
    (outcome previousPath : option Resource) :
  lookup id (pending s) = Some previousPath ->
  slot (resolve id outcome s) = outcome
  /\ disposed (resolve id outcome s) = cleanup Resource previousPath (disposed s)
  /\ forall other, other <> id ->
       lookup other (pending (resolve id outcome s)) = lookup other (pending s).
Proof.
  intros H. unfold resolve. rewrite H. unfold render.
  cbn [slot disposed pending]. repeat split.
  intros other Hne. unfold forget. apply lookup_forget_other. exact Hne.
Qed.

End HookFacts.

(** C2, as the claim states it, fails: when the first load settles after
    the second, the slot ends with the first load's resource; and when it
    settles before, its resource occupies the slot until the second
    settles.  In neither order is a resource of the two loads disposed. *)
Lemma first_load_settling_last_wins :
  Hook.slot
    (Hook.run Hook.initial
       [Hook.Trigger 1; Hook.Trigger 2;
        Hook.Resolve 2 (Some 20%nat); Hook.Resolve 1 (Some 10%nat)])
  = Some 10%nat
  /\ Hook.disposed
       (Hook.run Hook.initial
          [Hook.Trigger 1; Hook.Trigger 2;
           Hook.Resolve 2 (Some 20%nat); Hook.Resolve 1 (Some 10%nat)])
     = []
  /\ Hook.slots Hook.initial
       [Hook.Trigger 1; Hook.Trigger 2;
        Hook.Resolve 1 (Some 10%nat); Hook.Resolve 2 (Some 20%nat)]
     = [None; None; Some 10%nat; Some 20%nat]
  /\ Hook.disposed
       (Hook.run Hook.initial
          [Hook.Trigger 1; Hook.Trigger 2;
           Hook.Resolve 1 (Some 10%nat); Hook.Resolve 2 (Some 20%nat)])
     = [].
Proof. repeat split. Qed.

(** C2, amended: for either slot, when a second load is triggered before
    the first has settled, each load installs its outcome at the moment
    it settles, so once both have settled the slot holds the outcome of
    the load that settled last: the second load's when they settle in
    the order they were triggered, the first load's when the first
    settles last.  The only resources disposed on the way are the
    occupant the first load replaced and the one captured by the effect
    run before it; no outcome of the two loads is disposed. *)
Theorem last_settled_load_occupies_slot
    {Resource : Type} (s : Hook.State Resource) (a b : nat)
    (first second : option Resource) (Hdistinct : a <> b) :
  let old :=
    Hook.cleanup Resource (Hook.ref s)
      (Hook.cleanup Resource (Hook.ref s)
         (Hook.cleanup Resource (Hook.previous s) (Hook.disposed s))) in
  let inOrder :=
    [Hook.Trigger a; Hook.Trigger b; Hook.Resolve a first; Hook.Resolve b second] in
  let reversed :=
    [Hook.Trigger a; Hook.Trigger b; Hook.Resolve b second; Hook.Resolve a first] in
  Hook.slots s inOrder = [None; None; first; second]
  /\ Hook.slots s reversed = [None; None; second; first]
  /\ Hook.slot (Hook.run s inOrder) = second
  /\ Hook.slot (Hook.run s reversed) = first
  /\ Hook.disposed (Hook.run s inOrder) = old
  /\ Hook.disposed (Hook.run s reversed) = old.
Proof.
  assert (b <> a) as Hba by congruence.
  destruct (two_triggers s a b Hdistinct) as (Hslot2 & Ha & Hb & Hd2).
  cbn zeta. unfold Hook.run. cbn [Hook.slots fold_left Hook.step].
  set (s1 := Hook.trigger a s) in *.
  set (s2 := Hook.trigger b s1) in *.
  destruct (resolve_pending s2 a first _ Ha) as (Hs3 & Hd3 & Hp3).
  destruct (resolve_pending s2 b second _ Hb) as (Hs3' & Hd3' & Hp3').
  rewrite <- (Hp3 b Hba) in Hb. rewrite <- (Hp3' a Hdistinct) in Ha.
  destruct (resolve_pending _ b second _ Hb) as (Hs4 & Hd4 & _).
  destruct (resolve_pending _ a first _ Ha) as (Hs4' & Hd4' & _).
  assert (Hook.slot s1 = None) as Hslot1 by reflexivity.
  rewrite Hslot1, Hslot2, Hs3, Hs3', Hs4, Hs4', Hd4, Hd4', Hd3, Hd3', Hd2.
  repeat split.
Qed.

Lemma last_settled_load_occupies_slot_witness :
  Hook.slot
    (Hook.run Hook.initial
       [Hook.Trigger 1; Hook.Trigger 2;
        Hook.Resolve 2 (Some 20%nat); Hook.Resolve 1 (Some 10%nat)])
  = Some 10%nat.
Proof.
  assert (1 <> 2)%nat as Hdistinct by discriminate.
  exact (proj1 (proj2 (proj2 (proj2
    (last_settled_load_occupies_slot Hook.initial 1 2 (Some 10%nat) (Some 20%nat)
       Hdistinct))))).
Defined.

(** ** The default assets *)

Example default_gcode_path :
  GCode.createToolPath (GCode.parseGCode Assets.test_gcode) = Assets.test_gcode_path
  /\ length (GCode.createToolPath (GCode.parseGCode Assets.test_gcode)) = 16%nat
  /\ last (GCode.createToolPath (GCode.parseGCode Assets.test_gcode)) GCode.origin
     = Vector3.new (Finite (-60)) (Finite (-60)) (Finite 10).
Proof. repeat split; vm_compute; reflexivity. Qed.

(** The earlier copy of the model hook substitutes nothing for a missing
    file. *)
Remark legacy_hook_has_no_default (File : Type) :
  Assets.legacyStlSource (@None File) = None.
Proof. reflexivity. Qed.

(** C9, as the claim states it, fails for the model hook kept in
    [cnc-visualizer/hooks/useThreeSetup.ts]: even with a decoder that
    accepts every source, a missing file makes it read no source and
    load nothing, where the other copy of the hook loads the default. *)
Lemma legacy_model_hook_loads_no_default :
  Assets.legacyStlSource (@None unit) = None
  /\ Assets.legacyLoadedGeometry (fun _ : Assets.Source unit => Some tt) None
     = None
  /\ Assets.loadModel (fun _ : Assets.Source unit => Some tt) None
     = Some (Assets.newMesh tt Assets.phong).
Proof. repeat split. Qed.

(** C9, amended: in the path hook and in the model hook that defines a
    default path, a missing file is replaced by the default source, and
    what is read goes through the same interpreter and path builder, or
    the same mesh construction, as an uploaded file.  When the default
    paths answer with the shipped G-code file and with a geometry, the
    path hook gives the sixteen vertices of that file's square, ending
    at (-60,-60,10), and the model hook a mesh of that geometry; an
    uploaded file with the same text gives the same path.  The earlier
    copy of the model hook loads nothing when the file is missing. *)
Theorem default_assets_load
    {File BufferGeometry : Type}
    (readText : Assets.Source File -> option string)
    (decode : Assets.Source File -> option BufferGeometry)
    (g : BufferGeometry)
    (Htext :
       readText (Assets.Default Assets.DEFAULT_GCODE_PATH)
       = Some Assets.test_gcode)
    (Hgeometry : decode (Assets.Default Assets.DEFAULT_STL_PATH) = Some g) :
  Assets.loadPath readText None = Some Assets.test_gcode_path
  /\ Assets.loadModel decode None = Some (Assets.newMesh g Assets.phong)
  /\ (forall (file : File) (uploaded : string),
        readText (Assets.Upload file) = Some uploaded ->
        Assets.loadPath readText (Some file)
        = Some (GCode.createToolPath (GCode.parseGCode uploaded)))
  /\ (forall file : File,
        readText (Assets.Upload file) = Some Assets.test_gcode ->
        Assets.loadPath readText (Some file) = Assets.loadPath readText None)
  /\ (forall (file : File) (decoded : BufferGeometry),
        decode (Assets.Upload file) = Some decoded ->
        Assets.loadModel decode (Some file)
        = Some (Assets.newMesh decoded Assets.phong))
  /\ Assets.legacyLoadedGeometry decode None = None.
Proof.
  assert (Assets.loadPath readText None = Some Assets.test_gcode_path) as Hdefault.
  { unfold Assets.loadPath. cbn [Assets.gcodeSource]. rewrite Htext.
    apply f_equal. vm_compute. reflexivity. }
  split; [exact Hdefault|]. split.
  { unfold Assets.loadModel. cbn [Assets.stlSource]. now rewrite Hgeometry. }
  split.
  { intros file uploaded Hread.
    unfold Assets.loadPath. cbn [Assets.gcodeSource]. now rewrite Hread. }
  split.
  { intros file Hread. rewrite Hdefault.
    unfold Assets.loadPath. cbn [Assets.gcodeSource]. rewrite Hread.
    apply f_equal. vm_compute. reflexivity. }
  split; [|reflexivity].
  intros file decoded Hdec.
  unfold Assets.loadModel. cbn [Assets.stlSource]. now rewrite Hdec.
Qed.

Lemma default_assets_load_witness :
  Assets.loadPath (fun _ : Assets.Source unit => Some Assets.test_gcode) None
  = Some Assets.test_gcode_path
  /\ Assets.loadModel (fun _ : Assets.Source unit => Some tt) None
     = Some (Assets.newMesh tt Assets.phong).
Proof.
  pose proof (default_assets_load
                (fun _ : Assets.Source unit => Some Assets.test_gcode)
                (fun _ : Assets.Source unit => Some tt)
                tt eq_refl eq_refl) as H.
  split; [exact (proj1 H) | exact (proj1 (proj2 H))].
Defined.

(** * Further properties of the interpreter and the path builder *)
Section InterpreterExtras.
Import GCode.

Lemma split_nonempty (sep : ascii) (s : string) : split sep s <> [].
Proof.
  destruct s as [|c r]; cbn [split]; [discriminate|].
  destruct (Ascii.eqb c sep); [discriminate|].
  destruct (split sep r); discriminate.
Qed.

Lemma split_append (sep : ascii) (a b : string) :
  split sep (a ++ String sep b)%string = split sep a ++ split sep b.
Proof.
  induction a as [|c r IH]; cbn [String.append split].
  - rewrite Ascii.eqb_refl. reflexivity.
  - destruct (Ascii.eqb c sep).
    + rewrite IH. reflexivity.
    + rewrite IH. pose proof (split_nonempty sep r) as Hne.
      destruct (split sep r) as [|piece pieces]; [contradiction|reflexivity].
Qed.

Lemma parsePart_irrelevant (command : GCodeCommand) (part : string) :
  isRelevantToken part = false -> parsePart command part = command.
Proof.
  unfold isRelevantToken, isCoordinateToken, isAxisToken, isGToken, parsePart.
  intros H. apply orb_false_elim in H. destruct H as [HG HC].
  rewrite HG.
  destruct (isNaN (value part)); cbn [negb] in *; [reflexivity|].
  rewrite !andb_true_r in HC.
  apply orb_false_elim in HC. destruct HC as [HXY HZ].
  apply orb_false_elim in HXY. destruct HXY as [HX HY].
  rewrite HX, HY, HZ. reflexivity.
Qed.

Lemma fold_parsePart_relevant (parts : list string) :
  forall command : GCodeCommand,
    fold_left parsePart (filter isRelevantToken parts) command
    = fold_left parsePart parts command.
Proof.
  induction parts as [|part parts IH]; intros command; [reflexivity|].
  cbn [filter fold_left].
  destruct (isRelevantToken part) eqn:E.
  - cbn [fold_left]. apply IH.
  - rewrite (parsePart_irrelevant command part E). apply IH.
Qed.

Lemma parseParts_wellFormed (parts : list string) :
  keep (parseParts parts) = true -> wellFormed (parseParts parts) = true.
Proof.
  destruct (parseParts_fields parts) as (Ht & Hx & Hy & Hz).
  unfold keep, wellFormed. rewrite Ht, Hx, Hy, Hz. intros Hk.
  apply andb_prop in Hk. destruct Hk as [Htype Hcoord].
  assert (forall axis,
            notNaN (option_map value (lastToken (isAxisToken axis) parts)) = true)
    as Hnan.
  { intros axis.
    destruct (lastToken (isAxisToken axis) parts) as [part|] eqn:E; [|reflexivity].
    apply lastToken_some in E. destruct E as [_ E].
    unfold isAxisToken in E. apply andb_prop in E. exact (proj2 E). }
  rewrite !Hnan, Hcoord, !andb_true_r.
  destruct (lastToken isGToken parts) as [part|] eqn:E; [|discriminate].
  apply lastToken_some in E. exact (proj2 E).
Qed.

End InterpreterExtras.

(** X1: the interpreter reads every line on its own: the commands of a
    text made of two texts joined by a line feed are the commands of the
    first followed by the commands of the second. *)
Theorem parseGCode_concat (first second : string) :
  GCode.parseGCode (first ++ String GCode.LF second)%string
  = GCode.parseGCode first ++ GCode.parseGCode second.
Proof.
  rewrite !parseGCode_lines, split_append. apply flat_map_app.
Qed.

Lemma parsed_commands_wellFormed_aux (content : string) :
  forallb GCode.wellFormed (GCode.parseGCode content) = true.
Proof.
  apply forallb_forall. intros command Hin.
  rewrite parseGCode_lines in Hin. apply in_flat_map in Hin.
  destruct Hin as (line & _ & Hin).
  destruct (GCode.lineCommand line) as [c|] eqn:E; [|contradiction].
  destruct Hin as [<-|[]].
  apply lineCommand_some in E. destruct E as (-> & Hkeep & _).
  apply parseParts_wellFormed. exact Hkeep.
Qed.

(** X2: every command the interpreter returns has a type that begins
    with g or G, carries at least one coordinate, and has no coordinate
    that is NaN. *)
Theorem parsed_commands_wellFormed (content : string) :
  forallb GCode.wellFormed (GCode.parseGCode content) = true.
Proof. exact (parsed_commands_wellFormed_aux content). Qed.

(** X3: tokens that are neither a G token nor a valid X, Y or Z token
    (feed rates, spindle and M codes, comment words, malformed numbers)
    have no effect: removing them from a line leaves its command
    unchanged. *)
Theorem irrelevant_tokens_ignored (parts : list string) :
  GCode.parseParts (filter GCode.isRelevantToken parts) = GCode.parseParts parts.
Proof. apply fold_parsePart_relevant. Qed.

Section PathBuilderExtras.
Import GCode.

Lemma fold_pathStep (commands : list GCodeCommand) :
  forall (points : list Vector3.t) (position : Vector3.t),
    fold_left pathStep commands (points, position)
    = (points ++ traceFrom position commands, endFrom position commands).
Proof.
  induction commands as [|command commands IH]; intros points position;
    cbn [fold_left traceFrom endFrom].
  - now rewrite app_nil_r.
  - unfold pathStep at 2. destruct (isMotion command).
    + rewrite IH, <- app_assoc. reflexivity.
    + apply IH.
Qed.

Lemma tracePoints_traceFrom (commands : list GCodeCommand) :
  tracePoints commands = traceFrom origin commands.
Proof. unfold tracePoints. rewrite fold_pathStep. reflexivity. Qed.

Lemma traceFrom_length (commands : list GCodeCommand) :
  forall position,
    length (traceFrom position commands)
    = (2 * length (filter isMotion commands))%nat.
Proof.
  induction commands as [|command commands IH]; intros position;
    cbn [traceFrom filter]; [reflexivity|].
  destruct (isMotion command); cbn [length]; rewrite IH; lia.
Qed.

Lemma traceFrom_connected (commands : list GCodeCommand) :
  forall position, connected position (traceFrom position commands).
Proof.
  induction commands as [|command commands IH]; intros position;
    cbn [traceFrom]; [exact I|].
  destruct (isMotion command); [|apply IH].
  cbn [connected]. split; [reflexivity | apply IH].
Qed.

Lemma traceFrom_filter (commands : list GCodeCommand) :
  forall position,
    traceFrom position (filter isMotion commands) = traceFrom position commands.
Proof.
  induction commands as [|command commands IH]; intros position;
    cbn [traceFrom filter]; [reflexivity|].
  destruct (isMotion command) eqn:E; [|apply IH].
  cbn [traceFrom]. rewrite E, IH. reflexivity.
Qed.

Lemma last_default {A : Type} (l : list A) :
  forall a d d' : A, last (a :: l) d = last (a :: l) d'.
Proof.
  induction l as [|b l IH]; intros a d d'; [reflexivity|].
  change (last (b :: l) d = last (b :: l) d'). apply IH.
Qed.

Lemma traceFrom_last (commands : list GCodeCommand) :
  forall position,
    last (traceFrom position commands) position = endFrom position commands.
Proof.
  induction commands as [|command commands IH]; intros position;
    cbn [traceFrom endFrom]; [reflexivity|].
  destruct (isMotion command); [|apply IH].
  rewrite <- IH.
  destruct (traceFrom (moveTo position command) commands) as [|v l];
    [reflexivity|].
  change (last (v :: l) position = last (v :: l) (moveTo position command)).
  apply last_default.
Qed.

Lemma find_snoc {A : Type} (f : A -> bool) (l : list A) (a : A) :
  find f (l ++ [a])
  = match find f l with
    | Some b => Some b
    | None => if f a then Some a else None
    end.
Proof.
  induction l as [|b l IH]; cbn [app find]; [reflexivity|].
  destruct (f b); [reflexivity | exact IH].
Qed.

(** Each axis of the end position is the value of the last motion
    command that carries the axis, or the start value. *)
Lemma endFrom_axis
    (axis : GCodeCommand -> option number) (coordinate : Vector3.t -> number)
    (Hmove : forall position command,
        coordinate (moveTo position command)
        = match axis command with Some v => v | None => coordinate position end)
    (commands : list GCodeCommand) :
  forall position,
    coordinate (endFrom position commands)
    = carried axis (coordinate position) commands.
Proof.
  unfold carried, lastCarrying.
  induction commands as [|command commands IH]; intros position;
    cbn [endFrom rev]; [reflexivity|].
  rewrite IH, find_snoc.
  destruct (find _ (rev commands)) as [c|] eqn:E.
  - apply find_some in E. destruct E as [_ E].
    apply andb_prop in E. destruct E as [_ E].
    destruct (axis c); [reflexivity | discriminate E].
  - destruct (isMotion command); cbn [andb]; [|reflexivity].
    rewrite Hmove. destruct (axis command) eqn:Ea; cbn [isDefined];
      [rewrite Ea|]; reflexivity.
Qed.

Lemma traceFrom_notNaN (commands : list GCodeCommand) :
  forallb wellFormed commands = true ->
  forall position,
    vertexNotNaN position = true ->
    forallb vertexNotNaN (traceFrom position commands) = true.
Proof.
  induction commands as [|command commands IH]; intros Hwf position Hpos;
    cbn [traceFrom]; [reflexivity|].
  cbn [forallb] in Hwf. apply andb_prop in Hwf. destruct Hwf as [Hc Hrest].
  destruct (isMotion command); [|apply IH; assumption].
  assert (vertexNotNaN (moveTo position command) = true) as Hnew.
  { unfold wellFormed in Hc. unfold vertexNotNaN in *.
    repeat (apply andb_prop in Hc; destruct Hc as [Hc ?]).
    repeat (apply andb_prop in Hpos; destruct Hpos as [Hpos ?]).
    unfold moveTo. cbn [Vector3.x Vector3.y Vector3.z].
    unfold notNaN in *.
    destruct (x command), (y command), (z command);
      repeat (apply andb_true_intro; split); assumption. }
  cbn [forallb]. rewrite Hpos, Hnew. cbn [andb]. apply IH; assumption.
Qed.

End PathBuilderExtras.

(** X4: the path has two vertices for every command whose type begins
    with G0 or G1, and the two vertices of the default segment when there
    is no such command. *)
Theorem createToolPath_vertex_count (commands : list GCode.GCodeCommand) :
  length (GCode.createToolPath commands)
  = (2 * Nat.max 1 (length (filter GCode.isMotion commands)))%nat.
Proof.
  unfold GCode.createToolPath.
  rewrite tracePoints_traceFrom.
  pose proof (traceFrom_length commands GCode.origin) as Hlen.
  destruct (length (GCode.traceFrom GCode.origin commands) <? 2)%nat eqn:E.
  - apply Nat.ltb_lt in E. rewrite length_app, Hlen. cbn [length GCode.defaultSegment].
    lia.
  - apply Nat.ltb_ge in E. lia.
Qed.

(** X5: the traced path is one connected polyline from the origin: its
    first segment starts at (0,0,0) and every later segment starts at the
    point where the segment before it ends. *)
Theorem traced_path_connected (commands : list GCode.GCodeCommand) :
  GCode.connected GCode.origin (GCode.tracePoints commands).
Proof. rewrite tracePoints_traceFrom. apply traceFrom_connected. Qed.

(** X6: commands whose type does not begin with G0 or G1 are invisible
    to the path builder: they add no vertex and do not move the position,
    so removing them leaves the path unchanged. *)
Theorem non_motion_commands_transparent (commands : list GCode.GCodeCommand) :
  GCode.createToolPath (filter GCode.isMotion commands)
  = GCode.createToolPath commands.
Proof.
  unfold GCode.createToolPath.
  rewrite !tracePoints_traceFrom, traceFrom_filter. reflexivity.
Qed.

(** X7: modal carry-over in general.  The last traced point (the origin
    when nothing is traced) has, on each axis, the value given by the
    last motion command that carries that axis, and 0 when no motion
    command carries it. *)
Theorem final_position_carries_axes (commands : list GCode.GCodeCommand) :
  last (GCode.tracePoints commands) GCode.origin
  = Vector3.new
      (GCode.carried GCode.x (Finite 0) commands)
      (GCode.carried GCode.y (Finite 0) commands)
      (GCode.carried GCode.z (Finite 0) commands).
Proof.
  rewrite tracePoints_traceFrom, traceFrom_last.
  pose proof (endFrom_axis GCode.x Vector3.x (fun _ _ => eq_refl) commands GCode.origin) as Hx.
  pose proof (endFrom_axis GCode.y Vector3.y (fun _ _ => eq_refl) commands GCode.origin) as Hy.
  pose proof (endFrom_axis GCode.z Vector3.z (fun _ _ => eq_refl) commands GCode.origin) as Hz.
  change (Vector3.x GCode.origin) with (Finite 0) in Hx.
  change (Vector3.y GCode.origin) with (Finite 0) in Hy.
  change (Vector3.z GCode.origin) with (Finite 0) in Hz.
  rewrite <- Hx, <- Hy, <- Hz.
  destruct (GCode.endFrom GCode.origin commands). reflexivity.
Qed.

(** X8: whatever the text, no vertex of the path built from it has a
    NaN coordinate. *)
Theorem path_has_no_NaN (content : string) :
  forallb GCode.vertexNotNaN (GCode.createToolPath (GCode.parseGCode content))
  = true.
Proof.
  unfold GCode.createToolPath. rewrite tracePoints_traceFrom.
  pose proof (traceFrom_notNaN (GCode.parseGCode content)
                (parsed_commands_wellFormed_aux content) GCode.origin eq_refl) as H.
  destruct (length _ <? 2)%nat; [|exact H].
  rewrite forallb_app, H. reflexivity.
Qed.

(** * Further properties of the playback controller *)
Section PlaybackExtras.
Import Playback.

Lemma Qle_bool_false (a b : Q) : Qle_bool a b = false -> b < a.
Proof.
  intros H. apply Qnot_le_lt. intros Hle.
  apply Qle_bool_iff in Hle. congruence.
Qed.

Lemma div_duration (x : Q) : x / animationDuration == x * (1 # 5000).
Proof. unfold animationDuration. field. Qed.

Lemma step_playing_unfinished (s : State) (e : Event) :
  (isPlaying s = true -> progress s < 1) ->
  isPlaying (step s e) = true -> progress (step s e) < 1.
Proof.
  intros Hinv. destruct e as [| |v|t]; cbn [step].
  - unfold togglePlay. destruct (isPlaying s); cbn [negb isPlaying progress];
      [discriminate|].
    intros _. destruct (Qle_bool 1 (progress s)) eqn:E;
      [reflexivity | apply Qle_bool_false; exact E].
  - discriminate.
  - unfold handleProgressChange. cbn [isPlaying progress].
    destruct (Qle_bool 1 v) eqn:E; [discriminate|].
    intros _. apply Qle_bool_false. exact E.
  - destruct (isPlaying s) eqn:Hp;
      [|intros H; cbv iota in H; rewrite Hp in H; discriminate H].
    cbv iota. unfold animate. rewrite Hp. cbn [negb].
    destruct (Qle_bool 1 _) eqn:E; cbn [isPlaying progress]; [discriminate|].
    intros _. apply Qle_bool_false. exact E.
Qed.

Lemma step_progress_le_1 (s : State) (e : Event) :
  progress s <= 1 ->
  match e with Seek v => v <= 1 | _ => True end ->
  progress (step s e) <= 1.
Proof.
  intros Hle He. destruct e as [| |v|t]; cbn [step].
  - unfold togglePlay. destruct (isPlaying s); cbn [negb progress]; [exact Hle|].
    destruct (Qle_bool 1 (progress s)); [discriminate | exact Hle].
  - discriminate.
  - exact He.
  - destruct (isPlaying s) eqn:Hp; [|exact Hle].
    cbv iota. rewrite (animate_progress s t Hp). apply Q.le_min_l.
Qed.

End PlaybackExtras.

(** X9: over a run of frames with strictly increasing times, starting
    from a state with progress at most 1 whose stored frame time is 0 or
    not later than the first frame, progress never decreases from one
    frame to the next. *)
Theorem progress_never_decreases
    (s : Playback.State) (times : list Q)
    (Hbound : Playback.progress s <= 1)
    (Hsorted : Sorted Qlt times)
    (Hready : Playback.ready s times) :
  Sorted Qle (Playback.progress s :: Playback.frames s times).
Proof. exact (frames_monotone times s Hbound Hsorted Hready). Qed.

Lemma progress_never_decreases_witness :
  Sorted Qle
    (Playback.progress (Playback.mkState (1 # 5) true 0)
     :: Playback.frames (Playback.mkState (1 # 5) true 0) [1000; 2000; 3000]).
Proof.
  apply (progress_never_decreases (Playback.mkState (1 # 5) true 0) [1000; 2000; 3000]).
  - discriminate.
  - repeat constructor.
  - left. reflexivity.
Defined.

(** X10: whatever the user does and whenever frames arrive, the
    controller is never playing with progress at 1 or beyond: playback
    stops the moment progress reaches 1, a seek to 1 stops it, and play
    at the end restarts from 0. *)
Theorem playing_implies_unfinished
    (events : list Playback.Event)
    (Hplaying :
       Playback.isPlaying (Playback.run Playback.initial events) = true) :
  Playback.progress (Playback.run Playback.initial events) < 1.
Proof.
  revert Hplaying. unfold Playback.run.
  assert (forall evs s,
            (Playback.isPlaying s = true -> Playback.progress s < 1) ->
            Playback.isPlaying (fold_left Playback.step evs s) = true ->
            Playback.progress (fold_left Playback.step evs s) < 1) as H.
  { induction evs as [|e evs IH]; intros s Hinv; cbn [fold_left]; [exact Hinv|].
    apply IH. apply step_playing_unfinished. exact Hinv. }
  apply H. discriminate.
Qed.

Lemma playing_implies_unfinished_witness :
  Playback.progress
    (Playback.run Playback.initial
       [Playback.Seek 1; Playback.Toggle; Playback.Frame 1000; Playback.Frame 1500])
  < 1.
Proof.
  apply (playing_implies_unfinished
           [Playback.Seek 1; Playback.Toggle; Playback.Frame 1000; Playback.Frame 1500]).
  vm_compute. reflexivity.
Defined.

(** X11: as long as every seek value is at most 1, progress never
    exceeds 1, whatever the order of the events and the frame times. *)
Theorem progress_at_most_one
    (events : list Playback.Event)
    (Hseeks : Playback.seeksWithin events) :
  Playback.progress (Playback.run Playback.initial events) <= 1.
Proof.
  unfold Playback.run.
  assert (forall evs s,
            Playback.seeksWithin evs -> Playback.progress s <= 1 ->
            Playback.progress (fold_left Playback.step evs s) <= 1) as H.
  { induction evs as [|e evs IH]; intros s Hevs Hle; cbn [fold_left]; [exact Hle|].
    inversion Hevs; subst.
    apply IH; [assumption | apply step_progress_le_1; assumption]. }
  apply H; [exact Hseeks | discriminate].
Qed.

Lemma progress_at_most_one_witness :
  Playback.progress
    (Playback.run Playback.initial
       [Playback.Toggle; Playback.Frame 1000; Playback.Seek (9 # 10);
        Playback.Frame 9000])
  <= 1.
Proof.
  apply (progress_at_most_one
           [Playback.Toggle; Playback.Frame 1000; Playback.Seek (9 # 10);
            Playback.Frame 9000]).
  repeat constructor. discriminate.
Defined.


(** * Further properties of the partial-path renderer *)
Section RendererExtras.
Import Renderer.



Lemma updatePathAnimation_shown (full : list Vector3.t) (p : Q) :
  full <> [] ->
  (0 <= pointsToShow (length full) p)%Z ->
  updatePathAnimation full true p
  = Some (firstn (Z.to_nat (pointsToShow (length full) p)) full).
Proof.
  intros Hne Hpos. unfold updatePathAnimation.
  destruct (length full =? 0)%nat eqn:El.
  { apply Nat.eqb_eq, length_zero_iff_nil in El. contradiction. }
  cbn [orb negb]. unfold slice0.
  destruct (pointsToShow (length full) p <? 0)%Z eqn:E;
    [apply Z.ltb_lt in E; lia | reflexivity].
Qed.

End RendererExtras.



(** X14: the two ends of the slider.  For a loaded path, progress 0 (or
    below) shows the empty line and progress 1 (or beyond) shows the
    whole path. *)
Theorem slider_ends
    (completePathPoints : list Vector3.t) (p : Q)
    (Hloaded : completePathPoints <> []) :
  (p <= 0 -> Renderer.updatePathAnimation completePathPoints true p = Some [])
  /\ (1 <= p ->
      Renderer.updatePathAnimation completePathPoints true p
      = Some completePathPoints).
Proof.
  destruct (pointsToShow_cases (length completePathPoints) p) as (H0 & H1 & _).
  split; intros Hp.
  - rewrite updatePathAnimation_shown; [|exact Hloaded | rewrite (H0 Hp); lia].
    rewrite (H0 Hp). reflexivity.
  - rewrite updatePathAnimation_shown; [|exact Hloaded | rewrite (H1 Hp); lia].
    rewrite (H1 Hp), Nat2Z.id, firstn_all. reflexivity.
Qed.

Lemma slider_ends_witness :
  Renderer.updatePathAnimation GCode.defaultSegment true 1
  = Some GCode.defaultSegment.
Proof.
  assert (GCode.defaultSegment <> []) as Hloaded by discriminate.
  assert (1 <= 1) as Hp by discriminate.
  exact (proj2 (slider_ends GCode.defaultSegment 1 Hloaded) Hp).
Defined.

(** * Further properties of the resource slots *)
Section HookExtras.
Import Hook.
Context {Resource : Type}.

Lemma trigger_fields (s : State Resource) (a : nat) :
  slot (trigger a s) = None
  /\ previous (trigger a s) = ref s
  /\ lookup a (pending (trigger a s)) = Some (ref s)
  /\ disposed (trigger a s) = cleanup Resource (previous s) (disposed s)
  /\ forall b, b <> a ->
       lookup b (pending (trigger a s)) = lookup b (pending s).
Proof.
  unfold trigger, render. cbn [slot previous pending disposed lookup].
  rewrite Nat.eqb_refl. repeat split.
  intros b Hb.
  assert ((a =? b)%nat = false) as -> by (apply Nat.eqb_neq; congruence).
  reflexivity.
Qed.

Lemma resolve_flags (s : State Resource) (id : nat)
    (outcome previousPath : option Resource) :
  lookup id (pending s) = Some previousPath ->
  isLoading (resolve id outcome s) = false
  /\ failed (resolve id outcome s)
     = match outcome with Some _ => false | None => true end
  /\ previous (resolve id outcome s) = previous s.
Proof.
  intros H. unfold resolve. rewrite H. unfold render.
  cbn [isLoading failed previous]. auto.
Qed.

Lemma in_cleanup (r : Resource) (o : option Resource) (log : list Resource) :
  In r (cleanup Resource o log) -> In r log \/ o = Some r.
Proof.
  destruct o as [r'|]; cbn [cleanup]; [|auto].
  intros H. apply in_app_or in H. destruct H as [H|[->|[]]]; auto.
Qed.

End HookExtras.

(** X15: a load that is not superseded replaces the occupant of its
    slot.  When it settles, the slot holds its outcome (nothing after a
    failure, which also raises the error), loading is over, and the
    resource that was in the slot when the load was triggered has been
    handed to dispose, after a failure as after a success. *)
Theorem lone_load_replaces_occupant
    {Resource : Type} (s : Hook.State Resource) (a : nat)
    (outcome : option Resource) :
  let s' := Hook.run s [Hook.Trigger a; Hook.Resolve a outcome] in
  Hook.slot s' = outcome
  /\ Hook.isLoading s' = false
  /\ Hook.failed s' = match outcome with Some _ => false | None => true end
  /\ Hook.disposed s'
     = Hook.cleanup Resource (Hook.ref s)
         (Hook.cleanup Resource (Hook.previous s) (Hook.disposed s)).
Proof.
  cbn zeta. unfold Hook.run. cbn [fold_left Hook.step].
  destruct (trigger_fields s a) as (_ & _ & Hlook & Hdisp & _).
  destruct (resolve_pending (Hook.trigger a s) a outcome _ Hlook) as (Hs & Hd & _).
  destruct (resolve_flags (Hook.trigger a s) a outcome _ Hlook) as (Hl & Hf & _).
  rewrite Hs, Hl, Hf, Hd, Hdisp. auto.
Qed.

(** X16: unmounting does not dispose what the slot holds.  The cleanup
    of the load effect disposes the resource captured when the load was
    triggered, so a resource installed by the latest load, if it was not
    disposed or held before, is still in the slot and undisposed after
    unmount. *)
Theorem unmount_leaves_occupant_undisposed
    {Resource : Type} (s : Hook.State Resource) (a : nat) (r : Resource)
    (Hfresh : ~ In r (Hook.disposed s))
    (Href : Hook.ref s <> Some r)
    (Hprevious : Hook.previous s <> Some r) :
  let s' :=
    Hook.unmount (Hook.run s [Hook.Trigger a; Hook.Resolve a (Some r)]) in
  Hook.slot s' = Some r /\ ~ In r (Hook.disposed s').
Proof.
  cbn zeta. unfold Hook.run. cbn [fold_left Hook.step].
  destruct (trigger_fields s a) as (_ & Hprev & Hlook & Hdisp & _).
  destruct (resolve_pending (Hook.trigger a s) a (Some r) _ Hlook) as (Hs & Hd & _).
  destruct (resolve_flags (Hook.trigger a s) a (Some r) _ Hlook) as (_ & _ & Hp).
  unfold Hook.unmount. cbn [Hook.slot Hook.disposed].
  rewrite Hs, Hd, Hp, Hprev, Hdisp. split; [reflexivity|].
  intros Hin.
  apply in_cleanup in Hin. destruct Hin as [Hin|Hin]; [|contradiction].
  apply in_cleanup in Hin. destruct Hin as [Hin|Hin]; [|contradiction].
  apply in_cleanup in Hin. destruct Hin as [Hin|Hin]; contradiction.
Qed.

Lemma unmount_leaves_occupant_undisposed_witness :
  ~ In 10%nat
      (Hook.disposed
         (Hook.unmount
            (Hook.run Hook.initial [Hook.Trigger 1; Hook.Resolve 1 (Some 10%nat)]))).
Proof.
  assert (~ In 10%nat (Hook.disposed (@Hook.initial nat))) as Hfresh
    by (intros []).
  assert (Hook.ref (@Hook.initial nat) <> Some 10%nat) as Href by discriminate.
  assert (Hook.previous (@Hook.initial nat) <> Some 10%nat) as Hprevious
    by discriminate.
  exact (proj2 (unmount_leaves_occupant_undisposed Hook.initial 1 10%nat
                  Hfresh Href Hprevious)).
Defined.

(** X17: the loading flag follows the load that settled last, not the
    loads in flight: when a second load is triggered before the first
    settles, the flag is cleared as soon as the first settles, while the
    second is still pending. *)
Theorem loading_flag_cleared_while_pending
    {Resource : Type} (s : Hook.State Resource) (a b : nat)
    (first : option Resource) (Hdistinct : a <> b) :
  let s' :=
    Hook.run s [Hook.Trigger a; Hook.Trigger b; Hook.Resolve a first] in
  Hook.isLoading s' = false
  /\ Hook.lookup b (Hook.pending s') = Some None.
Proof.
  cbn zeta. unfold Hook.run. cbn [fold_left Hook.step].
  assert (b <> a) as Hba by congruence.
  destruct (two_triggers s a b Hdistinct) as (_ & Ha & Hb & _).
  destruct (resolve_pending _ a first _ Ha) as (_ & _ & Hp).
  destruct (resolve_flags _ a first _ Ha) as (Hl & _ & _).
  rewrite Hl, (Hp b Hba), Hb. auto.
Qed.

Lemma loading_flag_cleared_while_pending_witness :
  Hook.isLoading
    (Hook.run (@Hook.initial nat)
       [Hook.Trigger 1; Hook.Trigger 2; Hook.Resolve 1 (Some 10%nat)])
  = false.
Proof.
  assert (1 <> 2)%nat as Hdistinct by discriminate.
  exact (proj1 (loading_flag_cleared_while_pending Hook.initial 1 2
                  (Some 10%nat) Hdistinct)).
Defined.

(** * The upload handlers *)
Section UploadExtras.

Lemma toLowerCase_length (s : string) :
  String.length (toLowerCase s) = String.length s.
Proof.
  induction s as [|c r IH]; cbn [toLowerCase String.length]; [reflexivity|].
  now rewrite IH.
Qed.

Lemma toLowerCase_append (s t : string) :
  toLowerCase (s ++ t) = (toLowerCase s ++ toLowerCase t)%string.
Proof.
  induction s as [|c r IH]; cbn [toLowerCase String.append]; [reflexivity|].
  now rewrite IH.
Qed.

Lemma toLowerCase_split (u v : string) :
  forall s : string,
    toLowerCase s = (u ++ v)%string ->
    exists s1 s2,
      s = (s1 ++ s2)%string /\ toLowerCase s1 = u /\ toLowerCase s2 = v.
Proof.
  induction u as [|c u IH]; intros s H.
  - exists EmptyString, s. auto.
  - destruct s as [|d s]; [discriminate H|].
    cbn [toLowerCase String.append] in H. injection H as Hc Hrest.
    destruct (IH s Hrest) as (s1 & s2 & -> & H1 & H2).
    exists (String d s1), s2. cbn [toLowerCase String.append].
    rewrite Hc, H1. auto.
Qed.

Lemma endsWith_length (s searchString : string) :
  endsWith s searchString = true ->
  (String.length searchString <= String.length s)%nat.
Proof.
  induction s as [|c r IH]; cbn [endsWith]; intros H.
  - rewrite orb_false_r in H. apply String.eqb_eq in H. subst. apply Nat.le_refl.
  - apply orb_prop in H. destruct H as [H|H].
    + apply String.eqb_eq in H. subst. apply Nat.le_refl.
    + cbn [String.length]. apply IH in H. lia.
Qed.

Lemma endsWith_stem (s searchString : string) :
  endsWith s searchString = true <->
  exists stem, s = (stem ++ searchString)%string.
Proof.
  split.
  - induction s as [|c r IH]; cbn [endsWith]; intros H.
    + rewrite orb_false_r in H. apply String.eqb_eq in H.
      exists EmptyString. exact H.
    + apply orb_prop in H. destruct H as [H|H].
      * apply String.eqb_eq in H. exists EmptyString. exact H.
      * destruct (IH H) as [stem ->]. exists (String c stem). reflexivity.
  - intros [stem ->].
    induction stem as [|c stem IH].
    + destruct searchString; cbn [String.append endsWith];
        rewrite String.eqb_refl; reflexivity.
    + cbn [String.append endsWith]. rewrite IH. apply orb_true_r.
Qed.

(** A character that lower-cases to a given small letter is that letter
    or its capital; one that lower-cases to the dot is the dot. *)
Ltac lower_cases c :=
  destruct c as [[] [] [] [] [] [] [] []]; intros H;
  solve [discriminate H | auto].

Lemma lower_dot (c : ascii) : lower c = "."%char -> c = "."%char.
Proof. lower_cases c. Qed.

Lemma lower_s (c : ascii) : lower c = "s"%char -> c = "s"%char \/ c = "S"%char.
Proof. lower_cases c. Qed.

Lemma lower_t (c : ascii) : lower c = "t"%char -> c = "t"%char \/ c = "T"%char.
Proof. lower_cases c. Qed.

Lemma lower_l (c : ascii) : lower c = "l"%char -> c = "l"%char \/ c = "L"%char.
Proof. lower_cases c. Qed.

End UploadExtras.

(** X18: the STL upload handler accepts a picked file exactly when its
    name ends in a dot followed by s, t and l, each in either case.  An
    accepted file has a name of at least four characters, becomes the
    current file and raises no alert; a pick that is not accepted (wrong
    extension, or no file) raises the alert and leaves the current file
    as it was, in the G-code handler as well. *)
Theorem upload_check_ignores_case
    {File : Type} (name : File -> string)
    (picked current : option File) :
  (Upload.accepts name ".stl" picked = true <->
   exists (file : File) (stem : string) (a b c : ascii),
     picked = Some file
     /\ name file
        = (stem ++ String "." (String a (String b (String c EmptyString))))%string
     /\ (a = "s" \/ a = "S")%char
     /\ (b = "t" \/ b = "T")%char
     /\ (c = "l" \/ c = "L")%char)
  /\ (Upload.accepts name ".stl" picked = false ->
      Upload.handleStlUpload name picked current = (current, true))
  /\ (Upload.accepts name ".gcode" picked = false ->
      Upload.handleGcodeUpload name picked current = (current, true))
  /\ (Upload.accepts name ".stl" picked = true ->
      exists file,
        picked = Some file
        /\ Upload.handleStlUpload name picked current = (Some file, false)
        /\ (4 <= String.length (name file))%nat).
Proof.
  split; [|unfold Upload.handleStlUpload, Upload.handleGcodeUpload; repeat split].
  - split.
    + destruct picked as [file|]; [|discriminate].
      cbn [Upload.accepts]. intros H.
      apply endsWith_stem in H. destruct H as [low Hlow].
      apply toLowerCase_split in Hlow.
      destruct Hlow as (stem & tail & Hname & _ & Htail).
      destruct tail as [|d [|a [|b [|c [|]]]]]; try discriminate Htail.
      cbn [toLowerCase] in Htail. injection Htail as Hd Ha Hb Hc.
      apply lower_dot in Hd. subst d.
      exists file, stem, a, b, c.
      repeat split; [exact Hname | apply lower_s | apply lower_t | apply lower_l];
        assumption.
    + intros (file & stem & a & b & c & -> & Hname & Ha & Hb & Hc).
      cbn [Upload.accepts]. rewrite Hname, toLowerCase_append.
      apply endsWith_stem. exists (toLowerCase stem). f_equal.
      destruct Ha as [-> | ->], Hb as [-> | ->], Hc as [-> | ->]; reflexivity.
  - intros H. rewrite H. reflexivity.
  - intros H. rewrite H. reflexivity.
  - intros H. destruct picked as [file|]; [|discriminate H].
    exists file. rewrite H. repeat split.
    cbn [Upload.accepts] in H.
    apply endsWith_length in H. rewrite toLowerCase_length in H. exact H.
Qed.

Lemma upload_check_ignores_case_witness :
  Upload.handleStlUpload (fun file : string => file) (Some "notes.txt") (Some "part.STL")
  = (Some "part.STL", true).
Proof.
  exact (proj1 (proj2
    (upload_check_ignores_case (fun file : string => file)
       (Some "notes.txt") (Some "part.STL"))) eq_refl).
Defined.

(** * Pause, reset and the stored frame time *)



(** X20: reset clears the stored frame time.  From any state, after a
    reset and play the first frame, whenever it comes, adds nothing:
    progress is still 0 and the controller is playing. *)
Theorem reset_then_play_starts_fresh (s : Playback.State) (t : Q) :
  let s' :=
    Playback.run s [Playback.Reset; Playback.Toggle; Playback.Frame t] in
  Playback.progress s' == 0 /\ Playback.isPlaying s' = true.
Proof.
  cbn zeta. unfold Playback.run. cbn [fold_left Playback.step].
  change (Playback.togglePlay (Playback.handleReset s))
    with (Playback.mkState 0 true 0).
  cbn [Playback.isPlaying].
  pose proof (div_duration (t - t)) as Hd.
  unfold Playback.animate.
  cbn [Playback.isPlaying Playback.progress Playback.lastTime negb].
  change (Qeq_bool 0 0) with true. cbv iota.
  destruct (Q.min_spec 1 (0 + (t - t) / Playback.animationDuration))
    as [[Hlt Hmin]|[Hge Hmin]];
  destruct (Qle_bool 1 (Qmin 1 (0 + (t - t) / Playback.animationDuration))) eqn:E;
    try (apply Qle_bool_iff in E); try (apply Qle_bool_false in E);
    cbn [Playback.isPlaying Playback.progress];
    try lra; split; try lra; reflexivity.
Qed.
